(** * OCR correction with regex rules: a shallow embedding of [ria.py]
      and of the page assembly of [ocr_app.py].

    Text is a list of characters.  A character is a code point of the
    range U+0000..U+00FF, held in an [ascii]; the classes [\w] and [\d]
    are Python's classification of these code points for [str]
    patterns. *)

From Stdlib Require Import List Bool Arith Lia Ascii NArith ZArith.
From Stdlib Require String.
From Stdlib Require Floats Uint63.
Import ListNotations.
Import String.StringSyntax.

Abbreviation string := String.string.

Open Scope string_scope.
Open Scope list_scope.
Open Scope nat_scope.

Set Implicit Arguments.

(* ================================================================== *)
(** * Characters and strings *)
(* ================================================================== *)

Definition text := list ascii.

Definition T (s : string) : text := String.list_ascii_of_string s.

Definition code (c : ascii) : N := N_of_ascii c.

(** [lo <= c <= hi] on code points, as in a class range [lo-hi]. *)
Definition in_range (lo hi c : ascii) : bool :=
  ((code lo <=? code c) && (code c <=? code hi))%N.

(** Membership in a bracketed class that lists its characters. *)
Definition one_of (cs : string) (c : ascii) : bool :=
  existsb (Ascii.eqb c) (T cs).

(** [\d]: for a [str] pattern a decimal digit (category Nd); below
    U+0100 these are the ten ASCII digits. *)
Definition is_digit (c : ascii) : bool := in_range "0" "9" c.

(** Code points of U+0080..U+00FF that [str.isalnum] accepts: the
    letters, the superscript digits and the vulgar fractions. *)
Definition latin1_alnum (c : ascii) : bool :=
  let n := code c in
  ((n =? 170) || (n =? 178) || (n =? 179) || (n =? 181) || (n =? 185)
   || (n =? 186) || (n =? 188) || (n =? 189) || (n =? 190)
   || ((192 <=? n) && (n <=? 214)) || ((216 <=? n) && (n <=? 246))
   || (248 <=? n))%N.

(** [\w]: alphanumeric or the underscore. *)
Definition is_word (c : ascii) : bool :=
  in_range "a" "z" c || in_range "A" "Z" c || is_digit c
  || Ascii.eqb c "_" || latin1_alnum c.

Definition text_eqb (a b : text) : bool :=
  if list_eq_dec ascii_dec a b then true else false.

(** [s.replace(old, new)] for one-character [old] and [new]. *)
Definition replace (old new : ascii) (s : text) : text :=
  map (fun c => if Ascii.eqb c old then new else c) s.

(** [sep.join(parts)]. *)
Fixpoint join (sep : text) (parts : list text) : text :=
  match parts with
  | [] => []
  | [p] => p
  | p :: ps => p ++ sep ++ join sep ps
  end.

(* ================================================================== *)
(** * Segment classifier ([SEG_TYPE], [_fix_digit_seg], [_fix_doc_id]) *)
(* ================================================================== *)

Inductive seg_kind : Set := D | M.

Definition seg_kind_eqb (a b : seg_kind) : bool :=
  match a, b with D, D | M, M => true | _, _ => false end.

Definition SEG_TYPE : list seg_kind := [D; M; M; M; M; M; D].

Definition _fix_digit_seg (s : text) : text :=
  replace "L" "1" (replace "l" "1" (replace "I" "1"
    (replace "o" "0" (replace "O" "0" s)))).

(** One iteration of the loop of [_fix_doc_id] over
    [zip(segs_raw, SEG_TYPE)]; the state is [(segs_fix, changes)]. *)
Definition _fix_doc_id_step (acc : list text * list (text * text))
  (rk : text * seg_kind) : list text * list (text * text) :=
  let '(segs_fix, changes) := acc in
  let '(raw, kind) := rk in
  let fixed := if seg_kind_eqb kind D then _fix_digit_seg raw else raw in
  (segs_fix ++ [fixed],
   if negb (text_eqb fixed raw) then changes ++ [(raw, fixed)] else changes).

(** [_fix_doc_id(m)], on [m.groups()]. *)
Definition _fix_doc_id (segs_raw : list text) : text * list (text * text) :=
  let '(segs_fix, changes) :=
    fold_left _fix_doc_id_step (combine segs_raw SEG_TYPE) ([], []) in
  (join (T "-") segs_fix, changes).

(* ================================================================== *)
(** * The fragment of [re] the program uses *)
(* ================================================================== *)

(** Patterns: literals and classes, concatenation, a greedy bounded
    repetition of a class, capture groups, and the one-character
    look-around assertions. *)
Inductive regex : Type :=
| Eps
| Cls (p : ascii -> bool)
| Cat (r1 r2 : regex)
| Rep (p : ascii -> bool) (lo hi : nat)
| Grp (r : regex)
| Ahead (p : ascii -> bool)
| NotAhead (p : ascii -> bool)
| NotBehind (p : ascii -> bool).

Definition Chr (c : ascii) : regex := Cls (Ascii.eqb c).

(** A run of literal characters. *)
Definition Lit (s : string) : regex :=
  fold_right (fun c r => Cat (Chr c) r) Eps (T s).

Notation "r1 +> r2" := (Cat r1 r2) (at level 60, right associativity).

(** The matcher's position: the character before it (for look-behind),
    the text from it on, and the groups captured so far. *)
Record cursor : Type := Cursor
  { prev : option ascii; rest : text; caps : list text }.

Definition advance (c : ascii) (s : text) (cur : cursor) : cursor :=
  {| prev := Some c; rest := s; caps := caps cur |}.

Definition capture (from to : cursor) : cursor :=
  {| prev := prev to; rest := rest to;
     caps := caps to
             ++ [firstn (length (rest from) - length (rest to)) (rest from)] |}.

(** Greedy [p{lo,hi}] followed by the continuation [k]: the longest
    repetition is tried first, shorter ones on failure of [k]. *)
Fixpoint rep (A : Type) (p : ascii -> bool) (lo hi : nat) (cur : cursor)
  (k : cursor -> option A) {struct hi} : option A :=
  match hi with
  | 0 => if lo =? 0 then k cur else None
  | S hi' =>
    match rest cur with
    | c :: s =>
      if p c then
        match rep p (pred lo) hi' (advance c s cur) k with
        | Some a => Some a
        | None => if lo =? 0 then k cur else None
        end
      else if lo =? 0 then k cur else None
    | [] => if lo =? 0 then k cur else None
    end
  end.

(** Backtracking matcher in continuation-passing style: [run r cur k]
    is the first way, in the order [re] explores them, of matching [r]
    at [cur] for which [k] succeeds. *)
Fixpoint run (A : Type) (r : regex) (cur : cursor)
  (k : cursor -> option A) : option A :=
  match r with
  | Eps => k cur
  | Cls p =>
    match rest cur with
    | c :: s => if p c then k (advance c s cur) else None
    | [] => None
    end
  | Cat r1 r2 => run r1 cur (fun cur' => run r2 cur' k)
  | Rep p lo hi => rep p lo hi cur k
  | Grp r' => run r' cur (fun cur' => k (capture cur cur'))
  | Ahead p =>
    match rest cur with
    | c :: _ => if p c then k cur else None
    | [] => None
    end
  | NotAhead p =>
    match rest cur with
    | c :: _ => if p c then None else k cur
    | [] => k cur
    end
  | NotBehind p =>
    match prev cur with
    | Some c => if p c then None else k cur
    | None => k cur
    end
  end.

(** A match object: [m.group(0)], [m.groups()], and where it ends. *)
Record Match : Type := MkMatch
  { group0 : text; groups : list text;
    end_prev : option ascii; end_rest : text }.

(** The match of [r] that starts exactly at the position whose
    preceding character is [pv] and whose remaining text is [s]. *)
Definition match_at (r : regex) (pv : option ascii) (s : text)
  : option Match :=
  run r {| prev := pv; rest := s; caps := [] |}
    (fun cur => Some {| group0 := firstn (length s - length (rest cur)) s;
                        groups := caps cur;
                        end_prev := prev cur; end_rest := rest cur |}).

Section Sub.

Variable St : Type.
Variable r : regex.

(** The replacement: a function of the match, which may update the
    state [St] of its closure. *)
Variable f : Match -> St -> text * St.

(** [pattern.sub(f, s)]: scan left to right; at each position try a
    match; a non-empty match is replaced and scanning resumes at its
    end, otherwise the character is copied.  [None] is out of fuel. *)
Fixpoint sub_loop (fuel : nat) (pv : option ascii) (s : text) (st : St)
  {struct fuel} : option (text * St) :=
  match fuel with
  | 0 => None
  | S fuel' =>
    match match_at r pv s with
    | Some m =>
      let '(out, st1) := f m st in
      if length (end_rest m) <? length s then
        match sub_loop fuel' (end_prev m) (end_rest m) st1 with
        | Some (tl, st2) => Some (out ++ tl, st2)
        | None => None
        end
      else
        match s with
        | [] => Some (out, st1)
        | c :: s' =>
          match sub_loop fuel' (Some c) s' st1 with
          | Some (tl, st2) => Some (out ++ c :: tl, st2)
          | None => None
          end
        end
    | None =>
      match s with
      | [] => Some ([], st)
      | c :: s' =>
        match sub_loop fuel' (Some c) s' st with
        | Some (tl, st2) => Some (c :: tl, st2)
        | None => None
        end
      end
    end
  end.

Definition sub (s : text) (st : St) : option (text * St) :=
  sub_loop (S (length s)) None s st.

End Sub.

(** [pattern.subn(repl, s)] for a replacement string without escapes:
    the new text and the number of replacements. *)
Definition subn (r : regex) (repl : text) (s : text) : option (text * nat) :=
  sub r (fun _ n => (repl, S n)) s 0.

(** The callback that collects the matches it is called on. *)
Definition collect (m : Match) (ms : list Match) : text * list Match :=
  ([], ms ++ [m]).

(** [pattern.finditer(s)], the matches [sub] visits. *)
Definition finditer (r : regex) (s : text) : option (list Match) :=
  match sub r collect s [] with
  | Some (_, ms) => Some ms
  | None => None
  end.

(* ================================================================== *)
(** * Correction rules ([RULES]) and the document-ID pattern *)
(* ================================================================== *)

(** A rule [(re.compile(pattern), repl, label)]. *)
Record rule : Type := Rule
  { pat : regex; pattern : string; repl : text; label : string }.

Definition RULES : list rule :=
  [ (* 1. Longest/most-specific multi-char literals first *)
    Rule (Lit "0002B") "0002B" (T "00028") "0002B → 00028  [B↔8]";
    Rule (Lit "OOI") "OOI" (T "001") "OOI → 001      [O=0, I=1]";
    (* 2. Prefix-anchored I/1 confusions *)
    Rule (Lit "PR" +> Rep (one_of "I1l") 1 2) "PR[I1l]{1,2}" (T "PR1")
         "PR{I|II|1} → PR1";
    Rule (Lit "IN" +> Rep (one_of "I1l") 1 2) "IN[I1l]{1,2}" (T "IN1")
         "IN{I|II|1} → IN1";
    Rule (Lit "GR" +> Rep (one_of "I1l") 1 2) "GR[I1l]{1,2}" (T "GR1")
         "GR{I|II|1} → GR1";
    (* 3. Leading-char ambiguous sequences *)
    Rule (Cls (one_of "1Il") +> Lit "N2") "[1Il]N2" (T "IN2")
         "[1/I]N2 → IN2";
    Rule (Cls (one_of "1Il") +> Lit "N1") "[1Il]N1" (T "IN1")
         "[1/I]N1 → IN1";
    (* 4. Single-char swaps inside known surrounds *)
    Rule (Chr "P" +> Cls (one_of "I1") +> Chr "E") "P[I1]E" (T "PLE")
         "P[I/1]E → PLE  [I=L, 1=L]";
    Rule (Lit "028") "028" (T "02B") "028 → 02B       [8=B]";
    Rule (Lit "040") "040" (T "04C") "040 → 04C       [0=C]";
    (* 5. Post "global O→0" over-corrections *)
    Rule (Lit "0P" +> Ahead (fun c => negb (in_range "0" "9" c)))
         "0P(?=[^0-9])" (T "OP") "0P → OP         [O over-zeroed]";
    Rule (Lit "0TH") "0TH" (T "OTH") "0TH → OTH       [O over-zeroed]" ].

Definition hyphen : regex := Chr "-".

Definition DOC_ID_RE : regex :=
  NotBehind is_word
  +> Grp (Rep is_digit 2 6)          (* seg 1 - project number *)
  +> hyphen +> Grp (Rep is_word 2 4) (* seg 2 - org code *)
  +> hyphen +> Grp (Rep is_word 2 5) (* seg 3 - series / revision *)
  +> hyphen +> Grp (Rep is_word 2 3) (* seg 4 - document type *)
  +> hyphen +> Grp (Rep is_word 2 5) (* seg 5 - discipline *)
  +> hyphen +> Grp (Rep is_word 2 5) (* seg 6 - sub-code *)
  +> hyphen +> Grp (Rep is_word 4 6) (* seg 7 - sequence number *)
  +> NotAhead is_word.

(* ================================================================== *)
(** * Correction engine ([PageCorrector]) *)
(* ================================================================== *)

Definition rule_hit : Type := (string * text * string * nat)%type.
Definition id_change : Type := (text * text * list (text * text))%type.

Record PageCorrector : Type := MkPageCorrector
  { page : nat;
    rule_hits : list rule_hit;
    id_changes : list id_change;
    total_fixes : nat }.

(** [PageCorrector(page_num)]. *)
Definition new_corrector (page_num : nat) : PageCorrector :=
  {| page := page_num; rule_hits := []; id_changes := []; total_fixes := 0 |}.

(** Body of the loop of [_apply_rules] for one rule. *)
Definition _apply_rule (rl : rule) (self : PageCorrector) (tx : text)
  : option (text * PageCorrector) :=
  match subn (pat rl) (repl rl) tx with
  | None => None
  | Some (new_text, n) =>
    if n =? 0 then Some (tx, self)
    else Some (new_text,
               {| page := page self;
                  rule_hits := rule_hits self
                               ++ [(pattern rl, repl rl, label rl, n)];
                  id_changes := id_changes self;
                  total_fixes := total_fixes self + n |})
  end.

(** Pass 1: the rules of a table, in order, each on the text the
    earlier ones left. *)
Fixpoint apply_rules_from (rules : list rule) (self : PageCorrector)
  (tx : text) : option (text * PageCorrector) :=
  match rules with
  | [] => Some (tx, self)
  | rl :: rules' =>
    match _apply_rule rl self tx with
    | None => None
    | Some (tx', self') => apply_rules_from rules' self' tx'
    end
  end.

Definition _apply_rules (self : PageCorrector) (tx : text)
  : option (text * PageCorrector) :=
  apply_rules_from RULES self tx.

(** The closure [_sub] of [_apply_id_fixes]. *)
Definition _sub (m : Match) (self : PageCorrector) : text * PageCorrector :=
  let raw_id := group0 m in
  let '(fixed_id, seg_changes) := _fix_doc_id (groups m) in
  if negb (text_eqb fixed_id raw_id) then
    (fixed_id,
     {| page := page self;
        rule_hits := rule_hits self;
        id_changes := id_changes self ++ [(raw_id, fixed_id, seg_changes)];
        total_fixes := total_fixes self + 1 |})
  else (fixed_id, self).

(** Pass 2: document-ID structural correction. *)
Definition _apply_id_fixes (self : PageCorrector) (tx : text)
  : option (text * PageCorrector) :=
  sub DOC_ID_RE _sub tx self.

Definition correct (self : PageCorrector) (tx : text)
  : option (text * PageCorrector) :=
  match _apply_rules self tx with
  | None => None
  | Some (tx1, self1) => _apply_id_fixes self1 tx1
  end.

(* ================================================================== *)
(** * Page compositor and document synthesizer *)
(* ================================================================== *)

(** Python floats are IEEE binary64, as [PrimFloat.float]; an [int]
    operand is converted first (exactly, below 2^53). *)
Definition of_int (n : nat) : PrimFloat.float :=
  PrimFloat.of_uint63 (Uint63.of_Z (Z.of_nat n)).

(** [str.splitlines] boundaries below U+0100: LF, VT, FF, CR, FS, GS,
    RS and NEL; CR LF counts once. *)
Definition is_linebreak (c : ascii) : bool :=
  let n := code c in
  ((n =? 10) || (n =? 11) || (n =? 12) || (n =? 13)
   || (n =? 28) || (n =? 29) || (n =? 30) || (n =? 133))%N.

Fixpoint splitlines_from (cur : text) (s : text) : list text :=
  match s with
  | [] => match cur with [] => [] | _ => [cur] end
  | c :: s' =>
    if Ascii.eqb c "013" then
      match s' with
      | c' :: s'' =>
        if Ascii.eqb c' "010" then cur :: splitlines_from [] s''
        else cur :: splitlines_from [] s'
      | [] => cur :: splitlines_from [] s'
      end
    else if is_linebreak c then cur :: splitlines_from [] s'
    else splitlines_from (cur ++ [c]) s'
  end.

Definition splitlines (s : text) : list text := splitlines_from [] s.

(** [str.isspace] below U+0100. *)
Definition is_space (c : ascii) : bool :=
  let n := code c in
  (((9 <=? n) && (n <=? 13)) || ((28 <=? n) && (n <=? 32))
   || (n =? 133) || (n =? 160))%N.

(** Truth of [l.strip()]: some character is not white space. *)
Definition strip_nonempty (l : text) : bool :=
  existsb (fun c => negb (is_space c)) l.

(** What [page.insert_text] and [page.insert_image] leave on a page. *)
Record placed_line : Type := Placed
  { at_x : PrimFloat.float; at_y : PrimFloat.float; line_text : text;
    fontsize : nat; render_mode : nat }.

Record Page (Img : Type) : Type := MkPage
  { width : PrimFloat.float; height : PrimFloat.float;
    images : list (PrimFloat.float * PrimFloat.float
                   * PrimFloat.float * PrimFloat.float * Img);
    text_layer : list placed_line }.

Section Compositor.

Import PrimFloat.
Open Scope nat_scope.

Variable Img : Type.

(** Whether PyMuPDF raises on an insertion; the caller swallows it. *)
Variable insert_raises : PrimFloat.float -> PrimFloat.float -> text -> bool.

Definition insert_text (pg : Page Img) (x y : PrimFloat.float) (l : text)
  (fs mode : nat) : option (Page Img) :=
  if insert_raises x y l then None
  else Some {| width := width pg; height := height pg; images := images pg;
               text_layer := text_layer pg ++ [Placed x y l fs mode] |}.

Definition font_size : nat := 10.
Definition line_h : PrimFloat.float := (of_int font_size * 1.4)%float.
Definition margin_x : nat := 10.
Definition margin_y : nat := 20.

(** The [for i, line in enumerate(lines)] loop, from index [i] on. *)
Fixpoint place_lines (pg : Page Img) (h_pt step : PrimFloat.float)
  (i : nat) (lines : list text) : Page Img :=
  match lines with
  | [] => pg
  | line :: lines' =>
    let y := (of_int margin_y + of_int i * step + of_int font_size)%float in
    if (h_pt - of_int margin_y <? y)%float then pg
    else
      match insert_text pg (of_int margin_x) y line font_size 3 with
      | Some pg' => place_lines pg' h_pt step (S i) lines'
      | None => place_lines pg h_pt step (S i) lines'
      end
  end.

Definition text_lines (tx : text) : list text :=
  filter strip_nonempty (splitlines tx).

Definition line_step (h_pt : PrimFloat.float) (n : nat) : PrimFloat.float :=
  let usable_h := (h_pt - of_int (margin_y * 2))%float in
  if (of_int n * line_h <=? usable_h)%float then line_h
  else (usable_h / of_int n)%float.

Definition _insert_invisible_text (pg : Page Img) (tx : text)
  (w_pt h_pt : PrimFloat.float) : Page Img :=
  let lines := text_lines tx in
  match lines with
  | [] => pg
  | _ => place_lines pg h_pt (line_step h_pt (length lines)) 0 lines
  end.

End Compositor.

(** [pil.info.get("dpi")]: a pair, or a single number. *)
Inductive dpi_info : Type :=
| DpiPair (x y : PrimFloat.float)
| DpiValue (x : PrimFloat.float).

(** A page image as [Image.open] reads it: the source it came from
    (bytes, or a path), [pil.size] and the [dpi] entry of [pil.info]. *)
Record RasterPage (Src : Type) : Type := MkRaster
  { source : Src; size : nat * nat; info_dpi : option dpi_info }.

Section Synthesizer.

Import PrimFloat.
Open Scope nat_scope.

Variable Src : Type.
Variable insert_raises : PrimFloat.float -> PrimFloat.float -> text -> bool.

Definition new_page (w h : PrimFloat.float) : Page Src :=
  {| width := w; height := h; images := []; text_layer := [] |}.

Definition insert_image (pg : Page Src) (x0 y0 x1 y1 : PrimFloat.float)
  (src : Src) : Page Src :=
  {| width := width pg; height := height pg;
     images := images pg ++ [(x0, y0, x1, y1, src)];
     text_layer := text_layer pg |}.

(** [(dpi_info[0] if isinstance(dpi_info, tuple) else dpi_info) or 96]. *)
Definition dpi_of (img : RasterPage Src) : PrimFloat.float :=
  let dpi_info :=
    match info_dpi img with Some d => d | None => DpiPair 96 96 end in
  let v := match dpi_info with DpiPair x _ => x | DpiValue x => x end in
  if (v =? 0)%float then 96%float else v.

(** Body of the loop of [build_pdf]: the page made of one image and
    one text. *)
Definition build_page (png_bytes : RasterPage Src) (tx : text) : Page Src :=
  let '(w_px, h_px) := size png_bytes in
  let dpi_val := dpi_of png_bytes in
  let w_pt := (of_int (w_px * 72) / dpi_val)%float in
  let h_pt := (of_int (h_px * 72) / dpi_val)%float in
  let page := new_page w_pt h_pt in
  let page := insert_image page 0 0 w_pt h_pt (source png_bytes) in
  _insert_invisible_text insert_raises page tx w_pt h_pt.

End Synthesizer.

(** A [bytes] object. *)
Definition bytes : Type := list Byte.byte.

(** The exceptions of the assembly that reach its caller. *)
Inductive exception : Type :=
| ValueError (msg : string).

(** What a call that may raise comes to. *)
Inductive outcome (A : Type) : Type :=
| Returns (a : A)
| Raises (e : exception).

Arguments Returns {A} a.
Arguments Raises {A} e.

(** [out.save(out_path, garbage=4, deflate=True)]: PyMuPDF refuses a
    document without pages; otherwise the file holds the pages of the
    document, in order. *)
Definition save (Img : Type) (out : list (Page Img))
  : outcome (list (Page Img)) :=
  match out with
  | [] => Raises (ValueError "cannot save with zero pages")
  | _ :: _ => Returns out
  end.

Section Assembly.

Variable insert_raises : PrimFloat.float -> PrimFloat.float -> text -> bool.

(** [build_pdf]: the pages of the saved document, in order, or the
    exception of the save.  The page images are [bytes]: each is
    wrapped in [io.BytesIO] for PIL and handed to [insert_image] as
    [stream]. *)
Definition build_pdf (png_pages : list (RasterPage bytes))
  (texts : list text) : outcome (list (Page bytes)) :=
  let out :=
    fold_left (fun out pt => out ++ [build_page insert_raises (fst pt) (snd pt)])
              (combine png_pages texts) [] in
  save out.

End Assembly.

(** The same assembly in [ocr_app.py], where an image source is bytes
    or the path of an image file. *)
Module OcrApp.

Inductive img_src : Type :=
| FromBytes (b : bytes)
| FromPath (p : string).

Section App.

Import PrimFloat.
Open Scope nat_scope.

Variable insert_raises : PrimFloat.float -> PrimFloat.float -> text -> bool.

Definition _insert_invisible_text (pg : Page img_src)
  (markdown : text) (w_pt h_pt : PrimFloat.float) : Page img_src :=
  let lines := filter strip_nonempty (splitlines markdown) in
  match lines with
  | [] => pg
  | _ =>
    let usable_h := (h_pt - of_int (margin_y * 2))%float in
    let natural_h := (of_int (length lines) * line_h)%float in
    let step := if (natural_h <=? usable_h)%float then line_h
                else (usable_h / of_int (length lines))%float in
    place_lines insert_raises pg h_pt step 0 lines
  end.

(** Body of the loop of [build_searchable_pdf]; [insert_image] takes
    the source as [stream] when it is bytes, as [filename] otherwise. *)
Definition build_page (img : RasterPage img_src)
  (markdown : text) : Page img_src :=
  let '(w_px, h_px) := size img in
  let dpi_val := dpi_of img in
  let w_pt := (of_int (w_px * 72) / dpi_val)%float in
  let h_pt := (of_int (h_px * 72) / dpi_val)%float in
  let page := new_page _ w_pt h_pt in
  let page :=
    match source img with
    | FromBytes b => insert_image page 0 0 w_pt h_pt (FromBytes b)
    | FromPath p => insert_image page 0 0 w_pt h_pt (FromPath p)
    end in
  _insert_invisible_text page markdown w_pt h_pt.

(** [build_searchable_pdf]: the pages of the saved document, in order,
    or the exception of the save. *)
Definition build_searchable_pdf
  (image_sources : list (RasterPage img_src))
  (pages_markdown : list text) : outcome (list (Page img_src)) :=
  let out_doc :=
    fold_left (fun out_doc pm => out_doc ++ [build_page (fst pm) (snd pm)])
              (combine image_sources pages_markdown) [] in
  save out_doc.

End App.

End OcrApp.

(* ================================================================== *)
(** * Specification-side definitions *)
(* ================================================================== *)

(** The substitution the specification states for a Digit field, one
    character at a time: O and o become 0; I, l and L become 1; any
    other character stays. *)
Definition confusion_fix (c : ascii) : ascii :=
  if one_of "Oo" c then "0"%char
  else if one_of "IlL" c then "1"%char
  else c.

(** The field a classification asks for. *)
Definition fix_field (k : seg_kind) (raw : text) : text :=
  match k with D => map confusion_fix raw | M => raw end.

(** The longest prefix of [s] in the class [p], and what follows it. *)
Fixpoint span (p : ascii -> bool) (s : text) : text * text :=
  match s with
  | c :: s' =>
    if p c then let (w, r) := span p s' in (c :: w, r) else ([], s)
  | [] => ([], [])
  end.

(** The character before the position reached after reading [w]. *)
Definition prev_after (pv : option ascii) (w : text) : option ascii :=
  fold_left (fun _ c => Some c) w pv.

(** The class and the length bounds of each field of [DOC_ID_RE]. *)
Definition seg_spec : Type := ((ascii -> bool) * nat * nat)%type.

Definition ID_SEGS : list seg_spec :=
  [ (is_digit, 2, 6); (is_word, 2, 4); (is_word, 2, 5); (is_word, 2, 3);
    (is_word, 2, 5); (is_word, 2, 5); (is_word, 4, 6) ].

(** Hyphen-separated captured fields, followed by [tl]. *)
Fixpoint segs_re (specs : list seg_spec) (tl : regex) : regex :=
  match specs with
  | [] => tl
  | (p, lo, hi) :: specs' =>
    match specs' with
    | [] => Grp (Rep p lo hi) +> tl
    | _ => Grp (Rep p lo hi) +> hyphen +> segs_re specs' tl
    end
  end.

Definition seg_ok (sp : seg_spec) (w : text) : Prop :=
  let '(p, lo, hi) := sp in
  forallb p w = true /\ lo <= length w <= hi.

(** The text ends, or goes on with a character outside [p]. *)
Definition stops (p : ascii -> bool) (r : text) : Prop :=
  match r with [] => True | c :: _ => p c = false end.

(** What a document ID looks like at the start of [s] when the
    character before is [pv]: seven fields within their classes and
    bounds, joined by hyphens, not inside a longer word. *)
Definition id_shape (pv : option ascii) (s : text) (m : Match) : Prop :=
  match pv with Some c => is_word c = false | None => True end
  /\ Forall2 seg_ok ID_SEGS (groups m)
  /\ group0 m = join (T "-") (groups m)
  /\ s = group0 m ++ end_rest m
  /\ stops is_word (end_rest m)
  /\ end_prev m = prev_after pv (group0 m).

(** No rule of the table finds a match in [tx]. *)
Definition rules_quiet (tx : text) : Prop :=
  forall self, _apply_rules self tx = Some (tx, self).

(** The entry [_sub] records for a match, and whether it records one. *)
Definition id_entry (m : Match) : id_change :=
  (group0 m, fst (_fix_doc_id (groups m)), snd (_fix_doc_id (groups m))).

Definition id_changed (m : Match) : bool :=
  negb (text_eqb (fst (_fix_doc_id (groups m))) (group0 m)).

(** A continuation that cannot go on from a character of [p]. *)
Definition halts_on (A : Type) (p : ascii -> bool)
  (k : cursor -> option A) : Prop :=
  forall cur c s, rest cur = c :: s -> p c = true -> k cur = None.

(** A field class made of word characters only. *)
Definition word_class (sp : seg_spec) : Prop :=
  forall c, fst (fst sp) c = true -> is_word c = true.

(** No position of the text, from the current one on, starts a match
    of [r]. *)
Fixpoint no_match_from (r : regex) (pv : option ascii) (s : text) : Prop :=
  match_at r pv s = None
  /\ match s with [] => True | c :: s' => no_match_from r (Some c) s' end.

(** Two characters the ID pattern cannot tell apart after the first
    field: both word characters, or the same character. *)
Definition same_class (c c' : ascii) : Prop :=
  is_word c = is_word c' /\ (is_word c = false -> c = c').

(** The fields [_fix_doc_id] joins: each raw field as its
    classification asks. *)
Definition fixed_fields_of (kinds : list seg_kind) (segs : list text)
  : list text :=
  map (fun rk => fix_field (snd rk) (fst rk)) (combine segs kinds).

Definition fixed_fields (segs : list text) : list text :=
  fixed_fields_of SEG_TYPE segs.

(** The field edits [_fix_doc_id] reports. *)
Definition field_changes (segs : list text) : list (text * text) :=
  map (fun rk => (fst rk, fix_field (snd rk) (fst rk)))
      (filter (fun rk => negb (text_eqb (fix_field (snd rk) (fst rk)) (fst rk)))
              (combine segs SEG_TYPE)).

(** The fields after the first one are of the class [\w]. *)
Definition WORD_SEGS : list seg_spec := tl ID_SEGS.

(** The number of replacements a report entry records, and their sum. *)
Definition hit_count (h : rule_hit) : nat := snd h.

Definition hits_total (hs : list rule_hit) : nat :=
  fold_right (fun h n => hit_count h + n) 0 hs.

(** The baseline of line [i] at pitch [step], and the test at which
    the loop of [_insert_invisible_text] breaks. *)
Definition line_y (step : PrimFloat.float) (i : nat) : PrimFloat.float :=
  PrimFloat.add
    (PrimFloat.add (of_int margin_y) (PrimFloat.mul (of_int i) step))
    (of_int font_size).

Definition overflows (h_pt step : PrimFloat.float) (i : nat) : bool :=
  PrimFloat.ltb (PrimFloat.sub h_pt (of_int margin_y)) (line_y step i).

(** What [insert_text] leaves for line [snd jl] of index [fst jl]. *)
Definition placed_at (step : PrimFloat.float) (jl : nat * text)
  : placed_line :=
  Placed (of_int margin_x) (line_y step (fst jl)) (snd jl) font_size 3.

(** The line feed, and a text of the given lines. *)
Definition LF : ascii := "010"%char.

Definition unlines (ls : list text) : text := join [LF] ls.

(** An insertion that never raises. *)
Definition never_raises (_ _ : PrimFloat.float) (_ : text) : bool := false.

(** A page text of five short lines. *)
Definition five_lines : text :=
  unlines [T "a"; T "b"; T "c"; T "d"; T "e"].

(** A raw identifier whose last field holds a confusable letter, and
    the match object [DOC_ID_RE] yields on it. *)
Definition sample_id : text := T "26437-8lR-001-DR-CLG-PC-O0205".

Definition sample_match : Match :=
  {| group0 := T "26437-8lR-001-DR-CLG-PC-O0205";
     groups := [T "26437"; T "8lR"; T "001"; T "DR"; T "CLG"; T "PC";
                T "O0205"];
     end_prev := Some "5"%char;
     end_rest := [] |}.

(* ================================================================== *)
(** * The per-file pipeline ([ocr_page], [process_file] of ria.py) *)
(* ================================================================== *)

(** What [client.ocr.process] answers, as far as [ocr_page] reads it:
    the attribute [pages], when present, and the [markdown] of each
    page, which may be [None]. *)
Record ocr_response : Type := MkResponse
  { resp_pages : option (list (option text)) }.

(** The part of [ocr_page] after the call:
    [resp.pages[0].markdown or ""] when [pages] is there and not
    empty, [""] otherwise. *)
Definition ocr_page_text (resp : ocr_response) : text :=
  match resp_pages resp with
  | Some (first :: _) =>
    match first with Some markdown => markdown | None => [] end
  | _ => []
  end.

(** The separator of the pages in the markdown artifact. *)
Definition PAGE_SEP : text := [LF; LF] ++ T "---" ++ [LF; LF].

Section ProcessFile.

Variable insert_raises : PrimFloat.float -> PrimFloat.float -> text -> bool.

(** The answer of the OCR service for the page of index [i]. *)
Variable ocr_process : nat -> RasterPage bytes -> ocr_response.

Definition ocr_page (i : nat) (png : RasterPage bytes) : text :=
  ocr_page_text (ocr_process i png).

(** One turn of the loop of step 2 of [process_file]; the state is
    [(corrected_texts, total_page_fixes)]. *)
Definition process_page (acc : option (list text * nat))
  (ip : nat * RasterPage bytes) : option (list text * nat) :=
  match acc with
  | None => None
  | Some (corrected_texts, total_page_fixes) =>
    let pg := fst ip + 1 in
    let raw := ocr_page (fst ip) (snd ip) in
    match correct (new_corrector pg) raw with
    | None => None
    | Some (fixed, corrector) =>
      Some (corrected_texts ++ [fixed],
            if total_fixes corrector =? 0 then total_page_fixes
            else total_page_fixes + total_fixes corrector)
    end
  end.

(** [process_file] from the rasterised pages on: the pages of the
    saved document, the text of the markdown file when [out_md] is
    given, and the number of corrections it returns; or the exception
    of [build_pdf], raised before the markdown file is written.
    Console output is left out. *)
Definition process_file (pages_png : list (RasterPage bytes)) (out_md : bool)
  : option (outcome (list (Page bytes) * option text * nat)) :=
  match fold_left process_page
          (combine (seq 0 (length pages_png)) pages_png) (Some ([], 0)) with
  | None => None
  | Some (corrected_texts, total_page_fixes) =>
    Some (match build_pdf insert_raises pages_png corrected_texts with
          | Raises e => Raises e
          | Returns doc =>
            Returns (doc,
                     if out_md then Some (join PAGE_SEP corrected_texts)
                     else None,
                     total_page_fixes)
          end)
  end.

End ProcessFile.

(** The text [g0 i1 g1 i2 g2 ...]: pieces of text [g] with the texts
    [i] standing between them. *)
Fixpoint weave (g0 : text) (igs : list (text * text)) : text :=
  match igs with
  | [] => g0
  | (i, g) :: igs' => g0 ++ i ++ weave g igs'
  end.

(** The entries of the report for the rules and the counts of their
    substitutions: one entry for each count that is not zero. *)
Definition hits_of (rules : list rule) (ns : list nat) : list rule_hit :=
  map (fun rn => (pattern (fst rn), repl (fst rn), label (fst rn), snd rn))
      (filter (fun rn => negb (snd rn =? 0)) (combine rules ns)).

(** The page [pg] with the source of each image seen through [f]. *)
Definition page_map (A B : Type) (f : A -> B) (pg : Page A) : Page B :=
  {| width := width pg; height := height pg;
     images := map (fun im => (fst im, f (snd im))) (images pg);
     text_layer := text_layer pg |}.

(** A rasterised page as [process_file] of ocr_app.py lists it among
    its image sources. *)
Definition as_bytes_source (png : RasterPage bytes)
  : RasterPage OcrApp.img_src :=
  MkRaster (OcrApp.FromBytes (source png)) (size png) (info_dpi png).

(** The least number of characters a match of a pattern consumes. *)
Fixpoint min_len (r : regex) : nat :=
  match r with
  | Eps => 0
  | Cls _ => 1
  | Cat r1 r2 => min_len r1 + min_len r2
  | Rep _ lo _ => lo
  | Grp r' => min_len r'
  | Ahead _ | NotAhead _ | NotBehind _ => 0
  end.

(** One character of the identifier pass: kept, or replaced by its
    digit. *)
Definition kept_or_fixed (c c' : ascii) : Prop :=
  c' = c \/ c' = confusion_fix c.

(* ================================================================== *)
(** * Definitions for the study of the first rule *)
(* ================================================================== *)

(** [s] without its prefix [w], when it has this prefix. *)
Fixpoint strip_prefix (w s : text) : option text :=
  match w with
  | [] => Some s
  | c :: w' =>
    match s with
    | d :: s' => if Ascii.eqb c d then strip_prefix w' s' else None
    | [] => None
    end
  end.

(** Patterns made of classes, concatenation and repetition only. *)
Fixpoint plain (r : regex) : bool :=
  match r with
  | Eps | Cls _ | Rep _ _ _ => true
  | Cat r1 r2 => plain r1 && plain r2
  | _ => false
  end.

(** Every class of the pattern rejects the character [z]. *)
Fixpoint rejects (z : ascii) (r : regex) : bool :=
  match r with
  | Eps => true
  | Cls p | Rep p _ _ => negb (p z)
  | Cat r1 r2 => rejects z r1 && rejects z r2
  | _ => false
  end.

(** No match of the pattern starts with the character [c]. *)
Fixpoint rejects_head (c : ascii) (r : regex) : bool :=
  match r with
  | Cls p => negb (p c)
  | Rep p lo _ => negb (lo =? 0) && negb (p c)
  | Cat r1 _ => rejects_head c r1
  | _ => false
  end.

(** [undone 0 a b]: the text [a] is the text [b] in which some
    occurrences of 02B read 028.  The index tells how far inside such
    an occurrence the texts start. *)
Inductive undone : nat -> text -> text -> Prop :=
| undone_nil : undone 0 [] []
| undone_same (c : ascii) (a b : text) :
    undone 0 a b -> undone 0 (c :: a) (c :: b)
| undone_zero (a b : text) :
    undone 1 a b -> undone 0 ("0"%char :: a) ("0"%char :: b)
| undone_two (a b : text) :
    undone 2 a b -> undone 1 ("2"%char :: a) ("2"%char :: b)
| undone_eight (a b : text) :
    undone 0 a b -> undone 2 ("8"%char :: a) ("B"%char :: b).

(** The rules between the first one and 028 -> 02B, and the rules
    after it. *)
Definition RULES_2_8 : list rule := firstn 7 (tl RULES).
Definition RULE_1 : rule := nth 0 RULES (Rule Eps "" [] "").
Definition RULE_9 : rule := nth 8 RULES (Rule Eps "" [] "").
Definition RULES_10_12 : list rule := skipn 9 RULES.

(** What a rule must be like to keep [undone]: a plain pattern that
    consumes something, never reads a 0, and cannot start with 2, 8
    or B. *)
Definition blind_rule (rl : rule) : bool :=
  plain (pat rl) && rejects "0" (pat rl) && (0 <? min_len (pat rl))
  && rejects_head "2" (pat rl) && rejects_head "8" (pat rl)
  && rejects_head "B" (pat rl).

(** Two results that are both absent, or both present and related. *)
Definition res_rel (A B : Type) (R : A -> B -> Prop)
  (x : option A) (y : option B) : Prop :=
  match x, y with
  | Some a, Some b => R a b
  | None, None => True
  | _, _ => False
  end.

(* ================================================================== *)
(** * The per-file pipeline of ocr_app.py ([process_file]) *)
(* ================================================================== *)

Module OcrAppFile.

(** What [client.ocr.process] answers, as far as [process_file] reads
    it: the attributes [pages] and [text], each present or not; a
    [markdown] or a [text] may be [None]. *)
Record response : Type := MkResponse
  { pages : option (list (option text));
    text_attr : option (option text) }.

(** [md_text] after the call. *)
Definition md_text (resp : response) : text :=
  match pages resp with
  | Some (first :: _) =>
    match first with Some markdown => markdown | None => [] end
  | _ =>
    match text_attr resp with
    | Some (Some t) => t
    | _ => []
    end
  end.

(** The file given: a PDF, as its rasterised pages, or one image, as
    what PIL reads at its path. *)
Inductive input : Type :=
| Pdf (pages_png : list (RasterPage bytes))
| Picture (img : RasterPage string).

Section File.

Variable insert_raises : PrimFloat.float -> PrimFloat.float -> text -> bool.

(** The answer of the OCR service for the document of index [i]. *)
Variable ocr_process : nat -> RasterPage OcrApp.img_src -> response.

(** Step 1: [image_sources], one entry per page. *)
Definition image_sources (src : input) : list (RasterPage OcrApp.img_src) :=
  match src with
  | Pdf pages_png =>
    map (fun p => MkRaster (OcrApp.FromBytes (source p))
                           (size p) (info_dpi p)) pages_png
  | Picture img =>
    [MkRaster (OcrApp.FromPath (source img)) (size img) (info_dpi img)]
  end.

(** Step 2: [pages_markdown], by the loop over the documents sent. *)
Definition pages_markdown (src : input) : list text :=
  fold_left (fun acc id => acc ++ [md_text (ocr_process (fst id) (snd id))])
            (combine (seq 0 (length (image_sources src))) (image_sources src))
            [].

(** Step 3: the pages of the searchable PDF, and the markdown text
    when it is asked for; or the exception of [build_searchable_pdf],
    raised before the markdown file is written. *)
Definition process_file (src : input) (save_markdown : bool)
  : outcome (list (Page OcrApp.img_src) * option text) :=
  match OcrApp.build_searchable_pdf insert_raises (image_sources src)
          (pages_markdown src) with
  | Raises e => Raises e
  | Returns doc =>
    Returns (doc,
             if save_markdown then Some (join PAGE_SEP (pages_markdown src))
             else None)
  end.

End File.

End OcrAppFile.

(* ================================================================== *)
(** * Strings: basic facts *)
(* ================================================================== *)

Lemma text_eqb_eq (a b : text) : text_eqb a b = true <-> a = b.
Proof.
  unfold text_eqb. destruct (list_eq_dec ascii_dec a b); split; congruence.
Qed.

Lemma text_eqb_refl (a : text) : text_eqb a a = true.
Proof. apply text_eqb_eq. reflexivity. Qed.

Lemma text_eqb_neq (a b : text) : text_eqb a b = false <-> a <> b.
Proof.
  unfold text_eqb. destruct (list_eq_dec ascii_dec a b); split; congruence.
Qed.

Lemma fix_digit_seg_map (s : text) : _fix_digit_seg s = map confusion_fix s.
Proof.
  unfold _fix_digit_seg, replace. rewrite !map_map. apply map_ext.
  intros [[] [] [] [] [] [] [] []]; reflexivity.
Qed.

Lemma confusion_fix_idem (c : ascii) :
  confusion_fix (confusion_fix c) = confusion_fix c.
Proof. destruct c as [[] [] [] [] [] [] [] []]; reflexivity. Qed.

Lemma confusion_fix_word (c : ascii) :
  is_word (confusion_fix c) = is_word c.
Proof. destruct c as [[] [] [] [] [] [] [] []]; reflexivity. Qed.

Lemma confusion_fix_digit (c : ascii) :
  is_digit c = true -> confusion_fix c = c.
Proof. destruct c as [[] [] [] [] [] [] [] []]; vm_compute; congruence. Qed.

Lemma confusion_fix_nonword (c : ascii) :
  is_word c = false -> confusion_fix c = c.
Proof. destruct c as [[] [] [] [] [] [] [] []]; vm_compute; congruence. Qed.

Lemma digit_is_word (c : ascii) : is_digit c = true -> is_word c = true.
Proof. destruct c as [[] [] [] [] [] [] [] []]; vm_compute; congruence. Qed.

(* ================================================================== *)
(** * The matcher: greedy repetition is deterministic before a stop *)
(* ================================================================== *)

Arguments Ascii.eqb : simpl never.
Arguments is_word : simpl never.
Arguments is_digit : simpl never.

Lemma span_spec (p : ascii -> bool) (s : text) :
  s = fst (span p s) ++ snd (span p s)
  /\ forallb p (fst (span p s)) = true
  /\ stops p (snd (span p s)).
Proof.
  induction s as [|c s IH]; simpl.
  - auto.
  - destruct (p c) eqn:Hc.
    + destruct (span p s) as [w r]; simpl in *.
      destruct IH as (E & F & S). rewrite Hc, F. repeat split; auto.
      congruence.
    + simpl. auto.
Qed.

Lemma span_intro (p : ascii -> bool) (w r : text) :
  forallb p w = true -> stops p r -> span p (w ++ r) = (w, r).
Proof.
  induction w as [|c w IH]; simpl; intros F S.
  - destruct r as [|c r]; simpl in *; [reflexivity | now rewrite S].
  - apply andb_prop in F as [Hc F]. rewrite Hc, IH; auto.
Qed.

Lemma span_length (p : ascii -> bool) (s : text) :
  length (fst (span p s)) + length (snd (span p s)) = length s.
Proof.
  destruct (span_spec p s) as (E & _). rewrite E at 3.
  now rewrite length_app.
Qed.

Lemma prev_after_app (pv : option ascii) (u v : text) :
  prev_after pv (u ++ v) = prev_after (prev_after pv u) v.
Proof. unfold prev_after. apply fold_left_app. Qed.

Lemma prev_after_cons (pv : option ascii) (c : ascii) (w : text) :
  prev_after pv (c :: w) = prev_after (Some c) w.
Proof. reflexivity. Qed.

Lemma rep_greedy (A : Type) (p : ascii -> bool) (k : cursor -> option A) :
  halts_on p k ->
  forall hi lo cur,
    rep p lo hi cur k =
    let w := fst (span p (rest cur)) in
    if (lo <=? length w) && (length w <=? hi)
    then k {| prev := prev_after (prev cur) w;
              rest := snd (span p (rest cur));
              caps := caps cur |}
    else None.
Proof.
  intros Hk. induction hi as [|hi IH]; intros lo [pv s cp]; simpl.
  - destruct s as [|c s]; simpl.
    + destruct lo; reflexivity.
    + destruct (p c) eqn:Hc.
      * destruct (span p s) as [w r]; simpl.
        rewrite andb_false_r.
        destruct lo; simpl; [|reflexivity].
        eapply Hk; simpl; eauto.
      * simpl. destruct lo; reflexivity.
  - destruct s as [|c s]; simpl.
    + destruct lo; reflexivity.
    + destruct (p c) eqn:Hc.
      * rewrite IH. unfold advance; simpl.
        destruct (span p s) as [w r]; simpl.
        assert (Hlo : (pred lo <=? length w) = (lo <=? S (length w))).
        { destruct lo; simpl; reflexivity. }
        rewrite Hlo.
        destruct ((lo <=? S (length w)) && (length w <=? hi)) eqn:Hb.
        -- destruct (k _) eqn:Hk1; [reflexivity|].
           destruct lo; simpl; [|reflexivity].
           eapply Hk; simpl; eauto.
        -- destruct lo; simpl; [|reflexivity].
           eapply Hk; simpl; eauto.
      * simpl. destruct lo; reflexivity.
Qed.

(* ================================================================== *)
(** * The document-ID pattern matches exactly the ID shape *)
(* ================================================================== *)

Lemma word_not_hyphen (c : ascii) :
  is_word c = true -> Ascii.eqb "-" c = false.
Proof.
  intros H. destruct (Ascii.eqb "-" c) eqn:E; [|reflexivity].
  apply Ascii.eqb_eq in E. subst c. discriminate H.
Qed.

Lemma stops_word_class (sp : seg_spec) (r : text) :
  word_class sp -> stops is_word r -> stops (fst (fst sp)) r.
Proof.
  intros W. destruct r as [|c r]; simpl; [auto|].
  intros H. destruct (fst (fst sp) c) eqn:E; [|reflexivity].
  apply W in E. congruence.
Qed.

Lemma firstn_consumed (w r : text) :
  firstn (length (w ++ r) - length r) (w ++ r) = w.
Proof.
  rewrite length_app, Nat.add_sub.
  rewrite firstn_app, Nat.sub_diag, firstn_all. simpl. apply app_nil_r.
Qed.

Lemma join_cons (sep w : text) (ws : list text) :
  ws <> [] -> join sep (w :: ws) = w ++ sep ++ join sep ws.
Proof. destruct ws; [congruence | reflexivity]. Qed.

Lemma run_field_last (A : Type) (sp : seg_spec) (k : cursor -> option A)
  (cur : cursor) (a : A) :
  word_class sp ->
  run (segs_re [sp] (NotAhead is_word)) cur k = Some a <->
  exists w r,
    seg_ok sp w /\ rest cur = w ++ r /\ stops is_word r
    /\ k {| prev := prev_after (prev cur) w; rest := r;
            caps := caps cur ++ [w] |} = Some a.
Proof.
  destruct sp as [[p lo] hi]. intros W. simpl.
  rewrite rep_greedy.
  2:{ intros cur' c s E Hc. simpl. rewrite E. now rewrite (W c Hc). }
  destruct (span_spec p (rest cur)) as (E & F & S).
  cbv zeta. unfold capture; simpl.
  set (w := fst (span p (rest cur))) in *.
  set (r := snd (span p (rest cur))) in *.
  split.
  - destruct ((lo <=? length w) && (length w <=? hi)) eqn:B; [|discriminate].
    apply andb_prop in B as [B1 B2].
    apply Nat.leb_le in B1, B2.
    intros H. exists w, r.
    assert (Hcap : firstn (length (rest cur) - length r) (rest cur) = w).
    { rewrite E. apply firstn_consumed. }
    rewrite Hcap in H.
    destruct r as [|c r'] eqn:Er.
    + repeat split; auto.
    + destruct (is_word c) eqn:Hc; [discriminate|].
      repeat split; auto.
  - intros (w' & r' & (F' & B') & E' & S' & K).
    assert (Hs : span p (rest cur) = (w', r')).
    { rewrite E'. apply span_intro; auto.
      apply (@stops_word_class (p, lo, hi)); auto. }
    assert (w = w') by (unfold w; now rewrite Hs).
    assert (r = r') by (unfold r; now rewrite Hs).
    subst w' r'.
    replace ((lo <=? length w) && (length w <=? hi)) with true.
    2:{ symmetry. apply andb_true_intro. split; apply Nat.leb_le; lia. }
    assert (Hcap : firstn (length (rest cur) - length r) (rest cur) = w).
    { rewrite E. apply firstn_consumed. }
    rewrite Hcap.
    destruct r as [|c r'] eqn:Er; [exact K|].
    simpl in S'. now rewrite S'.
Qed.

Lemma run_field_more (A : Type) (sp : seg_spec) (re : regex)
  (k : cursor -> option A) (cur : cursor) (a : A) :
  word_class sp ->
  run (Grp (Rep (fst (fst sp)) (snd (fst sp)) (snd sp)) +> hyphen +> re)
      cur k = Some a <->
  exists w r,
    seg_ok sp w /\ rest cur = w ++ "-"%char :: r
    /\ run re {| prev := Some "-"%char; rest := r;
                 caps := caps cur ++ [w] |} k = Some a.
Proof.
  destruct sp as [[p lo] hi]. intros W. simpl.
  rewrite rep_greedy.
  2:{ intros cur' c s E Hc. simpl. rewrite E.
      now rewrite (word_not_hyphen _ (W c Hc)). }
  destruct (span_spec p (rest cur)) as (E & F & S).
  cbv zeta. unfold capture, advance; simpl.
  set (w := fst (span p (rest cur))) in *.
  set (r := snd (span p (rest cur))) in *.
  assert (Hcap : firstn (length (rest cur) - length r) (rest cur) = w).
  { rewrite E. apply firstn_consumed. }
  rewrite Hcap.
  split.
  - destruct ((lo <=? length w) && (length w <=? hi)) eqn:B; [|discriminate].
    apply andb_prop in B as [B1 B2].
    apply Nat.leb_le in B1, B2.
    destruct r as [|c r'] eqn:Er; [discriminate|].
    destruct (Ascii.eqb "-" c) eqn:Hc; [|discriminate].
    apply Ascii.eqb_eq in Hc. subst c.
    intros H. exists w, r'. repeat split; auto.
  - intros (w' & r' & (F' & B') & E' & K).
    assert (Hs : span p (rest cur) = (w', "-"%char :: r')).
    { rewrite E'. apply span_intro; auto. simpl.
      destruct (p "-"%char) eqn:Hp; [|reflexivity].
      apply W in Hp. discriminate Hp. }
    assert (w = w') by (unfold w; now rewrite Hs).
    assert (r = "-"%char :: r') by (unfold r; now rewrite Hs).
    subst w'. rewrite H0.
    replace ((lo <=? length w) && (length w <=? hi)) with true.
    2:{ symmetry. apply andb_true_intro. split; apply Nat.leb_le; lia. }
    simpl. exact K.
Qed.

Lemma run_segs (A : Type) (k : cursor -> option A) (specs : list seg_spec) :
  specs <> [] -> Forall word_class specs ->
  forall cur a,
    run (segs_re specs (NotAhead is_word)) cur k = Some a <->
    exists segs r,
      Forall2 seg_ok specs segs
      /\ rest cur = join (T "-") segs ++ r
      /\ stops is_word r
      /\ k {| prev := prev_after (prev cur) (join (T "-") segs);
              rest := r; caps := caps cur ++ segs |} = Some a.
Proof.
  induction specs as [|sp specs IH]; [congruence|].
  intros _ HW cur a. inversion HW as [|? ? W HW']; subst.
  destruct specs as [|sp' specs].
  - rewrite run_field_last by assumption. split.
    + intros (w & r & Hok & E & S & K). exists [w], r.
      repeat split; auto.
    + intros (segs & r & Hok & E & S & K).
      inversion Hok as [|? w ? ws Hw Hws]; subst.
      inversion Hws; subst. exists w, r. repeat split; auto.
  - assert (Hne : sp' :: specs <> []) by congruence.
    specialize (IH Hne HW').
    pose proof (@run_field_more A sp
                  (segs_re (sp' :: specs) (NotAhead is_word)) k cur a W) as L.
    destruct sp as [[p lo] hi]. cbn [fst snd] in L.
    change (segs_re ((p, lo, hi) :: sp' :: specs) (NotAhead is_word))
      with (Grp (Rep p lo hi) +> hyphen
            +> segs_re (sp' :: specs) (NotAhead is_word)).
    rewrite L. clear L. split.
    + intros (w & r & Hok & E & K).
      apply IH in K as (segs & r' & Hoks & E' & S & K). simpl in *.
      exists (w :: segs), r'.
      assert (segs <> []) by (inversion Hoks; congruence).
      rewrite join_cons by assumption.
      split; [now constructor|]. split; [|split; [exact S|]].
      * rewrite E, E'. now rewrite <- !app_assoc.
      * rewrite !prev_after_app. simpl.
        rewrite <- app_assoc in K. exact K.
    + intros (segs & r & Hok & E & S & K).
      inversion Hok as [|? w ? ws Hw Hws]; subst.
      assert (ws <> []) by (inversion Hws; congruence).
      rewrite join_cons in E, K by assumption.
      exists w, (join (T "-") ws ++ r).
      split; [exact Hw|]. split.
      * rewrite E. now rewrite <- !app_assoc.
      * apply IH. exists ws, r. simpl. repeat split; auto.
        rewrite !prev_after_app in K. simpl in K.
        rewrite <- app_assoc. exact K.
Qed.


Lemma ID_SEGS_word : Forall word_class ID_SEGS.
Proof.
  unfold ID_SEGS.
  repeat (apply Forall_cons; [intros c; cbn [fst]; auto using digit_is_word|]).
  apply Forall_nil.
Qed.

Lemma DOC_ID_RE_segs :
  DOC_ID_RE = NotBehind is_word +> segs_re ID_SEGS (NotAhead is_word).
Proof. reflexivity. Qed.

Lemma match_doc_id_unfold (pv : option ascii) (s : text) :
  match_at DOC_ID_RE pv s =
  match pv with
  | Some c =>
    if is_word c then None
    else run (segs_re ID_SEGS (NotAhead is_word))
           {| prev := pv; rest := s; caps := [] |}
           (fun cur => Some {| group0 := firstn (length s - length (rest cur)) s;
                               groups := caps cur;
                               end_prev := prev cur; end_rest := rest cur |})
  | None =>
    run (segs_re ID_SEGS (NotAhead is_word))
      {| prev := pv; rest := s; caps := [] |}
      (fun cur => Some {| group0 := firstn (length s - length (rest cur)) s;
                          groups := caps cur;
                          end_prev := prev cur; end_rest := rest cur |})
  end.
Proof.
  unfold match_at. rewrite DOC_ID_RE_segs.
  destruct pv as [c|]; reflexivity.
Qed.

(** [DOC_ID_RE] matches at a position exactly when the text there has
    the ID shape, and the match object is the one the shape names. *)
Lemma doc_id_match_iff (pv : option ascii) (s : text) (m : Match) :
  match_at DOC_ID_RE pv s = Some m <-> id_shape pv s m.
Proof.
  rewrite match_doc_id_unfold. unfold id_shape.
  assert (Hne : ID_SEGS <> []) by discriminate.
  pose proof (@run_segs Match
    (fun cur => Some {| group0 := firstn (length s - length (rest cur)) s;
                        groups := caps cur;
                        end_prev := prev cur; end_rest := rest cur |})
    ID_SEGS Hne ID_SEGS_word {| prev := pv; rest := s; caps := [] |} m) as L.
  cbn [prev rest caps app] in L.
  split.
  - intros H.
    assert (Hpv : match pv with Some c => is_word c = false | None => True end).
    { destruct pv as [c|]; [|exact I].
      destruct (is_word c); [discriminate|reflexivity]. }
    split; [exact Hpv|].
    assert (H' : exists segs r,
      Forall2 seg_ok ID_SEGS segs /\ s = join (T "-") segs ++ r
      /\ stops is_word r
      /\ Some {| group0 := firstn (length s - length r) s; groups := segs;
                 end_prev := prev_after pv (join (T "-") segs);
                 end_rest := r |} = Some m).
    { apply L. destruct pv as [c|]; [|exact H]. rewrite Hpv in H. exact H. }
    destruct H' as (segs & r & Hok & E & S & K).
    clear H L.
    assert (G : firstn (length s - length r) s = join (T "-") segs).
    { rewrite E. apply firstn_consumed. }
    rewrite G in K. injection K as <-.
    cbn [group0 groups end_prev end_rest]. auto.
  - intros (Hpv & Hok & G0 & E & S & P).
    assert (H' : run (segs_re ID_SEGS (NotAhead is_word))
                   {| prev := pv; rest := s; caps := [] |}
                   (fun cur => Some {| group0 := firstn (length s - length (rest cur)) s;
                        groups := caps cur;
                        end_prev := prev cur; end_rest := rest cur |}) = Some m).
    { apply L. exists (groups m), (end_rest m).
      split; [exact Hok|]. split; [now rewrite <- G0|]. split; [exact S|].
      destruct m as [g0 gs ep er]; cbn [group0 groups end_prev end_rest] in *.
      subst. now rewrite firstn_consumed. }
    destruct pv as [c|]; [|exact H']. rewrite Hpv. exact H'.
Qed.

(* ================================================================== *)
(** * [sub]: the scan returns, and visits the matches of [finditer] *)
(* ================================================================== *)

Section SubFacts.

Variable St : Type.
Variable r : regex.
Variable f : Match -> St -> text * St.

Lemma sub_loop_S (fuel : nat) (pv : option ascii) (s : text) (st : St) :
  sub_loop r f (S fuel) pv s st =
  match match_at r pv s with
  | Some m =>
    let '(out, st1) := f m st in
    if length (end_rest m) <? length s then
      match sub_loop r f fuel (end_prev m) (end_rest m) st1 with
      | Some (tl, st2) => Some (out ++ tl, st2)
      | None => None
      end
    else
      match s with
      | [] => Some (out, st1)
      | c :: s' =>
        match sub_loop r f fuel (Some c) s' st1 with
        | Some (tl, st2) => Some (out ++ c :: tl, st2)
        | None => None
        end
      end
  | None =>
    match s with
    | [] => Some ([], st)
    | c :: s' =>
      match sub_loop r f fuel (Some c) s' st with
      | Some (tl, st2) => Some (c :: tl, st2)
      | None => None
      end
    end
  end.
Proof. reflexivity. Qed.

Lemma sub_loop_total (fuel : nat) :
  forall pv s st, length s < fuel ->
    exists res, sub_loop r f fuel pv s st = Some res.
Proof.
  induction fuel as [|fuel IH]; intros pv s st Hlen; [lia|].
  simpl. destruct (match_at r pv s) as [m|].
  - destruct (f m st) as [out st1].
    destruct (length (end_rest m) <? length s) eqn:Hlt.
    + apply Nat.ltb_lt in Hlt.
      destruct (IH (end_prev m) (end_rest m) st1) as [[tl st2] E]; [lia|].
      rewrite E. eauto.
    + destruct s as [|c s']; [eauto|]. simpl in Hlen.
      destruct (IH (Some c) s' st1) as [[tl st2] E]; [lia|].
      rewrite E. eauto.
  - destruct s as [|c s']; [eauto|]. simpl in Hlen.
    destruct (IH (Some c) s' st) as [[tl st2] E]; [lia|].
    rewrite E. eauto.
Qed.

Lemma sub_total (s : text) (st : St) : exists res, sub r f s st = Some res.
Proof. apply sub_loop_total. lia. Qed.

(** More fuel does not change a result. *)
Lemma sub_loop_fuel (fuel : nat) :
  forall fuel' pv s st res,
    sub_loop r f fuel pv s st = Some res -> fuel <= fuel' ->
    sub_loop r f fuel' pv s st = Some res.
Proof.
  induction fuel as [|fuel IH]; intros fuel' pv s st res H Hle;
    [discriminate|].
  destruct fuel' as [|fuel']; [lia|]. simpl in *.
  destruct (match_at r pv s) as [m|].
  - destruct (f m st) as [out st1].
    destruct (length (end_rest m) <? length s).
    + destruct (sub_loop r f fuel (end_prev m) (end_rest m) st1)
        as [[tl st2]|] eqn:E; [|discriminate].
      rewrite (IH fuel' _ _ _ _ E); [exact H | lia].
    + destruct s as [|c s']; [exact H|].
      destruct (sub_loop r f fuel (Some c) s' st1)
        as [[tl st2]|] eqn:E; [|discriminate].
      rewrite (IH fuel' _ _ _ _ E); [exact H | lia].
  - destruct s as [|c s']; [exact H|].
    destruct (sub_loop r f fuel (Some c) s' st)
      as [[tl st2]|] eqn:E; [|discriminate].
    rewrite (IH fuel' _ _ _ _ E); [exact H | lia].
Qed.

Lemma sub_loop_no_match (fuel : nat) :
  forall pv s st, length s < fuel -> no_match_from r pv s ->
    sub_loop r f fuel pv s st = Some (s, st).
Proof.
  induction fuel as [|fuel IH]; intros pv s st Hlen Hno; [lia|].
  simpl. destruct s as [|c s']; simpl in Hno; destruct Hno as [E Hno];
    rewrite E; [reflexivity|].
  simpl in Hlen. rewrite IH; [reflexivity | lia | exact Hno].
Qed.

End SubFacts.

Lemma sub_loop_visits (St : Type) (r : regex)
  (f : Match -> St -> text * St) (fuel : nat) :
  forall pv s st out st' acc,
    sub_loop r f fuel pv s st = Some (out, st') ->
    exists ms txt,
      sub_loop r collect fuel pv s acc = Some (txt, acc ++ ms)
      /\ st' = fold_left (fun st0 m => snd (f m st0)) ms st.
Proof.
  unfold collect.
  induction fuel as [|fuel IH]; intros pv s st out st' acc H;
    [discriminate|].
  simpl in *. destruct (match_at r pv s) as [m|].
  - destruct (f m st) as [o st1] eqn:Ef.
    destruct (length (end_rest m) <? length s).
    + destruct (sub_loop r f fuel (end_prev m) (end_rest m) st1)
        as [[tl st2]|] eqn:E; [|discriminate].
      injection H as <- <-.
      destruct (IH _ _ _ _ _ (acc ++ [m]) E) as (ms & txt & E2 & Hst).
      rewrite E2. exists (m :: ms), ([] ++ txt).
      rewrite <- app_assoc. simpl. rewrite Ef. simpl. auto.
    + destruct s as [|c s'].
      * injection H as <- <-. exists [m], []. simpl. rewrite Ef. auto.
      * destruct (sub_loop r f fuel (Some c) s' st1)
          as [[tl st2]|] eqn:E; [|discriminate].
        injection H as <- <-.
        destruct (IH _ _ _ _ _ (acc ++ [m]) E) as (ms & txt & E2 & Hst).
        rewrite E2. exists (m :: ms), ([] ++ c :: txt).
        rewrite <- app_assoc. simpl. rewrite Ef. simpl. auto.
  - destruct s as [|c s'].
    + injection H as <- <-. exists [], []. rewrite app_nil_r. auto.
    + destruct (sub_loop r f fuel (Some c) s' st)
        as [[tl st2]|] eqn:E; [|discriminate].
      injection H as <- <-.
      destruct (IH _ _ _ _ _ acc E) as (ms & txt & E2 & Hst).
      rewrite E2. exists ms, (c :: txt). auto.
Qed.

(* ================================================================== *)
(** * [_fix_doc_id]: the fields and the edits it returns *)
(* ================================================================== *)

Lemma fix_doc_id_fold (pairs : list (text * seg_kind)) :
  forall segs_fix changes,
    fold_left _fix_doc_id_step pairs (segs_fix, changes) =
    (segs_fix ++ map (fun rk => fix_field (snd rk) (fst rk)) pairs,
     changes ++ map (fun rk => (fst rk, fix_field (snd rk) (fst rk)))
       (filter (fun rk => negb (text_eqb (fix_field (snd rk) (fst rk)) (fst rk)))
               pairs)).
Proof.
  induction pairs as [|[raw k] pairs IH]; intros sf ch; simpl.
  - now rewrite !app_nil_r.
  - assert (E : (if seg_kind_eqb k D then _fix_digit_seg raw else raw)
                = fix_field k raw).
    { destruct k; simpl; [apply fix_digit_seg_map | reflexivity]. }
    rewrite E, IH. rewrite <- app_assoc. simpl.
    destruct (negb (text_eqb (fix_field k raw) raw)); simpl;
      [now rewrite <- app_assoc | reflexivity].
Qed.

Lemma fix_doc_id_spec (segs : list text) :
  _fix_doc_id segs = (join (T "-") (fixed_fields segs), field_changes segs).
Proof.
  unfold _fix_doc_id, fixed_fields, fixed_fields_of, field_changes.
  now rewrite fix_doc_id_fold.
Qed.

Lemma fix_field_idem (k : seg_kind) (raw : text) :
  fix_field k (fix_field k raw) = fix_field k raw.
Proof.
  destruct k; simpl; [|reflexivity].
  rewrite map_map. apply map_ext. apply confusion_fix_idem.
Qed.

Lemma fixed_fields_of_idem (kinds : list seg_kind) :
  forall segs,
    fixed_fields_of kinds (fixed_fields_of kinds segs)
    = fixed_fields_of kinds segs.
Proof.
  unfold fixed_fields_of.
  induction kinds as [|k kinds IH]; intros [|w segs]; simpl; try reflexivity.
  now rewrite fix_field_idem, IH.
Qed.

Lemma fixed_fields_length (segs : list text) :
  length segs = 7 -> length (fixed_fields segs) = 7.
Proof.
  intros H. unfold fixed_fields, fixed_fields_of.
  rewrite length_map, length_combine, H. reflexivity.
Qed.

Lemma fixed_fields_nth (segs : list text) (i : nat) (raw : text)
  (k : seg_kind) :
  nth_error segs i = Some raw -> nth_error SEG_TYPE i = Some k ->
  nth_error (fixed_fields segs) i = Some (fix_field k raw).
Proof.
  unfold fixed_fields, fixed_fields_of. generalize SEG_TYPE as kinds.
  revert segs. induction i as [|i IH]; intros [|w segs] [|k' kinds];
    simpl; try discriminate.
  - now intros [= ->] [= ->].
  - apply IH.
Qed.

(* ================================================================== *)
(** * The identifier pass finds nothing to change in its own output *)
(* ================================================================== *)

Lemma same_class_refl (c : ascii) : same_class c c.
Proof. split; auto. Qed.

Lemma same_class_sym (c c' : ascii) : same_class c c' -> same_class c' c.
Proof.
  intros [H1 H2]. split; [congruence|].
  intros H. symmetry. apply H2. congruence.
Qed.

Lemma same_class_fix (c : ascii) : same_class c (confusion_fix c).
Proof.
  split.
  - symmetry. apply confusion_fix_word.
  - intros H. symmetry. now apply confusion_fix_nonword.
Qed.

Lemma same_class_hyphen (c : ascii) : same_class c "-" -> c = "-"%char.
Proof.
  intros [H1 H2]. apply H2. rewrite H1. reflexivity.
Qed.

Lemma same_class_list_refl (s : text) : Forall2 same_class s s.
Proof. induction s; constructor; auto using same_class_refl. Qed.

Lemma same_class_list_sym (s s' : text) :
  Forall2 same_class s s' -> Forall2 same_class s' s.
Proof. induction 1; constructor; auto using same_class_sym. Qed.

Lemma same_class_map_fix (s : text) :
  Forall2 same_class s (map confusion_fix s).
Proof. induction s; simpl; constructor; auto using same_class_fix. Qed.

Lemma same_class_fix_field (k : seg_kind) (s : text) :
  Forall2 same_class s (fix_field k s).
Proof.
  destruct k; simpl; [apply same_class_map_fix | apply same_class_list_refl].
Qed.

Lemma same_class_forallb_word (w w' : text) :
  Forall2 same_class w w' -> forallb is_word w' = forallb is_word w.
Proof.
  induction 1 as [|c c' w w' [H _] _ IH]; simpl; [reflexivity|].
  now rewrite H, IH.
Qed.

Lemma same_class_stops (r r' : text) :
  Forall2 same_class r r' -> stops is_word r -> stops is_word r'.
Proof.
  intros H. destruct H as [|c c' r r' [H _] _]; simpl; [auto|]. congruence.
Qed.

Lemma join_rel (R : ascii -> ascii -> Prop) (sep : text) :
  Forall2 R sep sep ->
  forall segs segs',
    Forall2 (Forall2 R) segs segs' ->
    Forall2 R (join sep segs) (join sep segs').
Proof.
  intros Hsep segs segs' H.
  induction H as [|w w' ws ws' Hw Hws IH]; simpl; [constructor|].
  destruct Hws as [|v v' vs vs' Hv Hvs]; [exact Hw|].
  apply Forall2_app; [exact Hw|]. apply Forall2_app; [exact Hsep|exact IH].
Qed.

Lemma join_rel_inv (segs' : list text) :
  forall x,
    Forall2 same_class x (join (T "-") segs') ->
    segs' <> [] ->
    exists segs, x = join (T "-") segs
                 /\ Forall2 (Forall2 same_class) segs segs'.
Proof.
  induction segs' as [|w' ws' IH]; intros x H Hne; [congruence|].
  destruct ws' as [|v' vs'].
  - exists [x]. split; [reflexivity|]. repeat constructor. exact H.
  - rewrite join_cons in H by discriminate.
    apply Forall2_app_inv_r in H as (x1 & x2 & H1 & H2 & ->).
    change (T "-" ++ join (T "-") (v' :: vs'))
      with ("-"%char :: join (T "-") (v' :: vs')) in H2.
    inversion H2 as [|c ? x3 ? Hc H3]; subst.
    apply same_class_hyphen in Hc. subst c.
    destruct (IH x3 H3) as (segs & -> & Hsegs); [discriminate|].
    exists (x1 :: segs). split.
    + rewrite join_cons; [reflexivity|]. inversion Hsegs; discriminate.
    + constructor; assumption.
Qed.

Lemma app_eq_length (A : Type) (a c b d : list A) :
  a ++ b = c ++ d -> length a = length c -> a = c /\ b = d.
Proof.
  revert c. induction a as [|x a IH]; intros [|y c]; simpl;
    try discriminate; intros E L.
  - auto.
  - injection E as -> E. destruct (IH c E) as [-> ->]; [lia|]. auto.
Qed.

Lemma Forall2_same_length (A B : Type) (R : A -> B -> Prop) l l' :
  Forall2 R l l' -> length l = length l'.
Proof. induction 1; simpl; congruence. Qed.

Lemma seg_ok_word_rel (lo hi : nat) (w w' : text) :
  Forall2 same_class w w' ->
  seg_ok (is_word, lo, hi) w' -> seg_ok (is_word, lo, hi) w.
Proof.
  intros H [F B]. split.
  - now rewrite <- (same_class_forallb_word H).
  - now rewrite (Forall2_same_length H).
Qed.

Lemma segs_ok_word_rel (specs : list seg_spec) :
  Forall (fun sp => fst (fst sp) = is_word) specs ->
  forall ws ws',
    Forall2 (Forall2 same_class) ws ws' ->
    Forall2 seg_ok specs ws' -> Forall2 seg_ok specs ws.
Proof.
  induction 1 as [|[[p lo] hi] specs Hp _ IH]; intros ws ws' HR Hok.
  - inversion Hok; subst. inversion HR; subst. constructor.
  - inversion Hok; subst. inversion HR; subst. simpl in Hp. subst p.
    constructor; [eapply seg_ok_word_rel; eauto | eapply IH; eauto].
Qed.

Lemma WORD_SEGS_word : Forall (fun sp => fst (fst sp) = is_word) WORD_SEGS.
Proof. repeat (apply Forall_cons; [reflexivity|]). apply Forall_nil. Qed.

(** The digits a text starts with, when it has the ID shape, are its
    first field. *)
Lemma id_text_digits (d : text) (ws : list text) (r : text) :
  seg_ok (is_digit, 2, 6) d -> ws <> [] ->
  fst (span is_digit (join (T "-") (d :: ws) ++ r)) = d.
Proof.
  intros [F _] Hne. rewrite join_cons by assumption.
  rewrite <- !app_assoc. rewrite span_intro; [reflexivity | exact F|].
  reflexivity.
Qed.

Lemma id_shape_transfer (pv : option ascii) (s s' : text) (m : Match) :
  id_shape pv s m ->
  Forall2 same_class s' s ->
  fst (span is_digit s') = fst (span is_digit s) ->
  exists m', id_shape pv s' m'.
Proof.
  intros (Hpv & Hok & G0 & E & S & P) HR Hd.
  rewrite E, G0 in HR.
  apply Forall2_app_inv_r in HR as (x & r2 & Hx & Hr & Es').
  assert (Hne : groups m <> []) by (inversion Hok; discriminate).
  destruct (join_rel_inv Hx Hne) as (segs & -> & Hsegs).
  unfold ID_SEGS in Hok.
  inversion Hok as [|? d ? ws Hdok Hws Eq1 Eq2]; subst.
  rewrite <- Eq2 in *.
  inversion Hsegs as [|x1 ? xs ? Hx1 Hxs]; subst.
  assert (Hwne : ws <> []) by (inversion Hws; discriminate).
  assert (Hxne : xs <> []).
  { intros ->. clear - Hxs Hwne. destruct ws; [now apply Hwne | inversion Hxs]. }
  assert (Ex1 : x1 = d).
  { rewrite G0 in Hd.
    rewrite (id_text_digits _ Hdok Hwne) in Hd.
    destruct (span_spec is_digit (join (T "-") (x1 :: xs) ++ r2))
      as (Esp & _). rewrite Hd in Esp.
    rewrite join_cons in Esp by assumption.
    rewrite <- app_assoc in Esp.
    apply app_eq_length in Esp as [-> _]; [reflexivity|].
    apply (Forall2_same_length Hx1). }
  subst x1.
  exists {| group0 := join (T "-") (d :: xs); groups := d :: xs;
            end_prev := prev_after pv (join (T "-") (d :: xs));
            end_rest := r2 |}.
  unfold id_shape; cbn [group0 groups end_prev end_rest].
  split; [exact Hpv|]. split.
  { constructor; [exact Hdok|].
    eapply (segs_ok_word_rel WORD_SEGS_word); eauto. }
  repeat split; auto.
  eapply same_class_stops; [apply same_class_list_sym; exact Hr | exact S].
Qed.

Lemma doc_id_none_transfer (pv : option ascii) (s out : text) :
  match_at DOC_ID_RE pv s = None ->
  Forall2 same_class s out ->
  fst (span is_digit out) = fst (span is_digit s) ->
  match_at DOC_ID_RE pv out = None.
Proof.
  intros Hn HR Hd.
  destruct (match_at DOC_ID_RE pv out) as [m'|] eqn:E; [|reflexivity].
  apply doc_id_match_iff in E.
  destruct (id_shape_transfer E HR (eq_sym Hd)) as (m & Hm).
  apply doc_id_match_iff in Hm. congruence.
Qed.

Lemma id_groups_inv (G : list text) :
  Forall2 seg_ok ID_SEGS G ->
  exists d s2 s3 s4 s5 s6 s7,
    G = [d; s2; s3; s4; s5; s6; s7]
    /\ seg_ok (is_digit, 2, 6) d /\ seg_ok (is_word, 4, 6) s7.
Proof.
  unfold ID_SEGS. intros H.
  repeat match goal with
         | H : Forall2 _ (_ :: _) _ |- _ => inversion H; clear H; subst
         | H : Forall2 _ [] _ |- _ => inversion H; clear H; subst
         end.
  do 7 eexists. split; [reflexivity|]. split; assumption.
Qed.

Lemma prev_after_last (p : ascii -> bool) (pv : option ascii) (w : text) :
  w <> [] -> forallb p w = true ->
  exists c, prev_after pv w = Some c /\ p c = true.
Proof.
  revert pv. induction w as [|c w IH]; intros pv Hne F; [congruence|].
  simpl in F. apply andb_prop in F as [Hc F].
  rewrite prev_after_cons. destruct w as [|c' w].
  - exists c. auto.
  - apply IH; [discriminate | exact F].
Qed.

Lemma id_shape_end_prev (pv : option ascii) (s : text) (m : Match) :
  id_shape pv s m -> exists c, end_prev m = Some c /\ is_word c = true.
Proof.
  intros (_ & Hok & G0 & _ & _ & P).
  destruct (id_groups_inv Hok) as (d & s2 & s3 & s4 & s5 & s6 & s7
                                     & EG & _ & F7 & B7).
  rewrite P, G0, EG. cbn [join].
  rewrite !prev_after_app.
  apply prev_after_last; [|exact F7].
  destruct s7; simpl in B7; [lia | discriminate].
Qed.

Lemma id_shape_consumes (pv : option ascii) (s : text) (m : Match) :
  id_shape pv s m -> length (end_rest m) < length s.
Proof.
  intros (_ & Hok & G0 & E & _).
  destruct (id_groups_inv Hok) as (d & s2 & s3 & s4 & s5 & s6 & s7
                                     & EG & (_ & B1) & _).
  rewrite E, G0, EG. cbn [join]. rewrite !length_app. lia.
Qed.

Lemma fixed_fields_rel_of (kinds : list seg_kind) :
  forall ws, length ws <= length kinds ->
    Forall2 (Forall2 same_class) ws (fixed_fields_of kinds ws).
Proof.
  unfold fixed_fields_of.
  induction kinds as [|k kinds IH]; intros [|w ws]; simpl; intros L;
    try constructor; try lia.
  - apply same_class_fix_field.
  - apply IH. lia.
Qed.

Lemma digits_fixed (d : text) :
  forallb is_digit d = true -> map confusion_fix d = d.
Proof.
  induction d as [|c d IH]; simpl; [reflexivity|].
  intros F. apply andb_prop in F as [Hc F].
  now rewrite (confusion_fix_digit _ Hc), IH.
Qed.

(** The fields of a matched ID after the fix: the first one is
    unchanged and all keep their class and length. *)
Lemma id_fixed_fields (G : list text) :
  Forall2 seg_ok ID_SEGS G ->
  Forall2 seg_ok ID_SEGS (fixed_fields G)
  /\ Forall2 (Forall2 same_class) G (fixed_fields G)
  /\ hd [] (fixed_fields G) = hd [] G.
Proof.
  intros Hok.
  assert (HR : Forall2 (Forall2 same_class) G (fixed_fields G)).
  { apply fixed_fields_rel_of.
    pose proof (Forall2_same_length Hok) as L. simpl in L |- *. unfold text in *. lia. }
  assert (Hhd : hd [] (fixed_fields G) = hd [] G).
  { destruct (id_groups_inv Hok) as (d & s2 & s3 & s4 & s5 & s6 & s7
                                       & -> & (F & _) & _).
    simpl. now apply digits_fixed. }
  split; [|split; assumption].
  inversion Hok as [|sp d sps ws Hd Hws E1 E2]. subst G.
  change (fixed_fields (d :: ws))
    with (map confusion_fix d :: fixed_fields_of (tl SEG_TYPE) ws) in *.
  simpl in Hhd. rewrite Hhd.
  constructor; [exact Hd|].
  apply (segs_ok_word_rel WORD_SEGS_word) with (ws' := ws); [|exact Hws].
  assert (HR' : Forall2 (Forall2 same_class) ws
                  (fixed_fields_of (tl SEG_TYPE) ws)).
  { apply fixed_fields_rel_of.
    pose proof (Forall2_same_length Hws) as L. simpl in L |- *.
    unfold text in *. lia. }
  clear - HR'. induction HR'; constructor; auto using same_class_list_sym.
Qed.

Lemma sub_id_fst (m : Match) (self : PageCorrector) :
  fst (_sub m self) = join (T "-") (fixed_fields (groups m)).
Proof.
  unfold _sub. rewrite fix_doc_id_spec.
  now destruct (negb (text_eqb _ _)).
Qed.

(** On a match whose fields are already fixed, [_sub] records
    nothing. *)
Lemma sub_id_fixed (G : list text) (ep : option ascii)
  (er : text) (self : PageCorrector) :
  _sub {| group0 := join (T "-") (fixed_fields G);
          groups := fixed_fields G; end_prev := ep; end_rest := er |} self
  = (join (T "-") (fixed_fields G), self).
Proof.
  unfold _sub. rewrite fix_doc_id_spec. cbn [group0 groups].
  unfold fixed_fields. rewrite fixed_fields_of_idem.
  now rewrite text_eqb_refl.
Qed.

Lemma doc_id_behind_word (c : ascii) (s : text) :
  is_word c = true -> match_at DOC_ID_RE (Some c) s = None.
Proof. intros H. rewrite match_doc_id_unfold. now rewrite H. Qed.

Lemma sub_loop_behind_word (St : Type) (f : Match -> St -> text * St)
  (fuel : nat) (c1 c2 : ascii) (s : text) (st : St) :
  is_word c1 = true -> is_word c2 = true ->
  sub_loop DOC_ID_RE f fuel (Some c1) s st
  = sub_loop DOC_ID_RE f fuel (Some c2) s st.
Proof.
  intros H1 H2. destruct fuel as [|fuel]; [reflexivity|].
  simpl. now rewrite !doc_id_behind_word.
Qed.

Lemma span_head (p : ascii -> bool) (c : ascii) (s s' : text) :
  fst (span p s') = fst (span p s) ->
  fst (span p (c :: s')) = fst (span p (c :: s)).
Proof.
  intros H. simpl. destruct (p c); [|reflexivity].
  destruct (span p s'), (span p s). simpl in *. congruence.
Qed.

Lemma id_fixes_loop (fuel : nat) :
  forall pv s st out st',
    sub_loop DOC_ID_RE _sub fuel pv s st = Some (out, st') ->
    (Forall2 same_class s out
     /\ fst (span is_digit out) = fst (span is_digit s))
    /\ forall st2, sub_loop DOC_ID_RE _sub fuel pv out st2 = Some (out, st2).
Proof.
  induction fuel as [|fuel IH]; intros pv s st out st' H; [discriminate|].
  simpl in H. destruct (match_at DOC_ID_RE pv s) as [m|] eqn:Em.
  - pose proof Em as Hm. apply doc_id_match_iff in Hm.
    pose proof (sub_id_fst m st) as Hfst.
    destruct (_sub m st) as [o st1]. cbn [fst] in Hfst. subst o.
    rewrite (proj2 (Nat.ltb_lt _ _) (id_shape_consumes Hm)) in H.
    destruct (sub_loop DOC_ID_RE _sub fuel (end_prev m) (end_rest m) st1)
      as [[tl st2]|] eqn:E; [|discriminate].
    injection H as <- <-.
    destruct (IH _ _ _ _ _ E) as ((HR & Hd) & Hidem).
    pose proof Hm as Hm0.
    destruct Hm as (Hpv & Hok & G0 & Es & S & P).
    destruct (id_fixed_fields Hok) as (Hok' & HRf & Hhd).
    change ["-"%char] with (T "-") in *.
    set (fixed := join (T "-") (fixed_fields (groups m))) in *.
    assert (HRg : Forall2 same_class (group0 m) fixed).
    { rewrite G0. apply join_rel; [apply same_class_list_refl | exact HRf]. }
    assert (Hm' : id_shape pv (fixed ++ tl)
                    {| group0 := fixed; groups := fixed_fields (groups m);
                       end_prev := prev_after pv fixed; end_rest := tl |}).
    { unfold id_shape; cbn [group0 groups end_prev end_rest].
      repeat split; auto. eapply same_class_stops; eauto. }
    split; [split|].
    + rewrite Es. apply Forall2_app; assumption.
    + rewrite Es, G0. unfold fixed.
      destruct (id_groups_inv Hok) as (d & s2 & s3 & s4 & s5 & s6 & s7
                                         & EG & Hdok & _).
      destruct (id_groups_inv Hok') as (d' & t2 & t3 & t4 & t5 & t6 & t7
                                          & EG' & Hdok' & _).
      rewrite EG, EG' in *. simpl in Hhd. subst d'.
      rewrite !id_text_digits; auto; discriminate.
    + intros st3. rewrite sub_loop_S.
      apply doc_id_match_iff in Hm'. rewrite Hm'.
      unfold fixed at 1 2. rewrite sub_id_fixed.
      cbn [end_rest end_prev].
      replace (length tl <? length (fixed ++ tl)) with true.
      2:{ symmetry. apply Nat.ltb_lt. rewrite length_app.
          apply doc_id_match_iff in Hm'.
          pose proof (id_shape_consumes Hm') as L. simpl in L.
          rewrite length_app in L. lia. }
      destruct (id_shape_end_prev Hm0) as (c1 & Ec1 & Hc1).
      apply doc_id_match_iff in Hm'.
      destruct (id_shape_end_prev Hm') as (c2 & Ec2 & Hc2).
      simpl in Ec2. rewrite Ec2.
      rewrite (@sub_loop_behind_word _ _sub fuel c2 c1 tl st3 Hc2 Hc1).
      rewrite <- Ec1. now rewrite Hidem.
  - destruct s as [|c s'].
    + injection H as <- <-. split; [split; [constructor|reflexivity]|].
      intros st2. rewrite sub_loop_S. now rewrite Em.
    + destruct (sub_loop DOC_ID_RE _sub fuel (Some c) s' st)
        as [[tl st2]|] eqn:E; [|discriminate].
      injection H as <- <-.
      destruct (IH _ _ _ _ _ E) as ((HR & Hd) & Hidem).
      assert (HR' : Forall2 same_class (c :: s') (c :: tl)).
      { constructor; [apply same_class_refl | exact HR]. }
      assert (Hd' : fst (span is_digit (c :: tl))
                    = fst (span is_digit (c :: s'))).
      { now apply span_head. }
      split; [split; assumption|].
      intros st3. rewrite sub_loop_S.
      rewrite (@doc_id_none_transfer _ _ _ Em HR' Hd'). now rewrite Hidem.
Qed.

(* ================================================================== *)
(** * The rule pass *)
(* ================================================================== *)

Lemma subn_total (r : regex) (rp s : text) :
  exists res, subn r rp s = Some res.
Proof. apply sub_total. Qed.

Lemma apply_rule_total (rl : rule) (self : PageCorrector) (tx : text) :
  exists res, _apply_rule rl self tx = Some res.
Proof.
  unfold _apply_rule.
  destruct (subn_total (pat rl) (repl rl) tx) as [[new n] E]. rewrite E.
  destruct (n =? 0); eauto.
Qed.

Lemma apply_rules_from_total (rules : list rule) :
  forall self tx, exists res, apply_rules_from rules self tx = Some res.
Proof.
  induction rules as [|rl rules IH]; intros self tx; simpl; [eauto|].
  destruct (apply_rule_total rl self tx) as [[tx' self'] E]. rewrite E.
  apply IH.
Qed.

Lemma apply_rules_from_app (rs1 rs2 : list rule) :
  forall self tx,
    apply_rules_from (rs1 ++ rs2) self tx =
    match apply_rules_from rs1 self tx with
    | Some (tx1, self1) => apply_rules_from rs2 self1 tx1
    | None => None
    end.
Proof.
  induction rs1 as [|rl rs1 IH]; intros self tx; simpl; [reflexivity|].
  destruct (_apply_rule rl self tx) as [[tx' self']|]; [apply IH|reflexivity].
Qed.

(** One rule either leaves text and report as they are, or appends a
    single entry with a positive count and adds that count. *)
Lemma apply_rule_cases (rl : rule) (self self' : PageCorrector)
  (tx tx' : text) :
  _apply_rule rl self tx = Some (tx', self') ->
  (tx' = tx /\ self' = self)
  \/ exists n, 0 < n
       /\ subn (pat rl) (repl rl) tx = Some (tx', n)
       /\ rule_hits self' = rule_hits self
                            ++ [(pattern rl, repl rl, label rl, n)]
       /\ total_fixes self' = total_fixes self + n
       /\ id_changes self' = id_changes self /\ page self' = page self.
Proof.
  unfold _apply_rule.
  destruct (subn (pat rl) (repl rl) tx) as [[new n]|]; [|discriminate].
  destruct (n =? 0) eqn:En; intros [= <- <-]; [left; auto|].
  right. exists n. apply Nat.eqb_neq in En. simpl.
  repeat split; auto. lia.
Qed.

Lemma apply_rules_from_hits (rules : list rule) :
  forall self tx tx' self',
    apply_rules_from rules self tx = Some (tx', self') ->
    exists hs,
      rule_hits self' = rule_hits self ++ hs
      /\ Forall (fun h => 0 < hit_count h) hs
      /\ total_fixes self' = total_fixes self + hits_total hs
      /\ id_changes self' = id_changes self /\ page self' = page self
      /\ (hs = [] -> tx' = tx /\ self' = self).
Proof.
  induction rules as [|rl rules IH]; intros self tx tx' self' H; simpl in H.
  - injection H as <- <-. exists []. rewrite app_nil_r. simpl.
    repeat split; auto.
  - destruct (_apply_rule rl self tx) as [[tx1 self1]|] eqn:E1;
      [|discriminate].
    destruct (IH _ _ _ _ H) as (hs & Hh & Hpos & Htot & Hid & Hpg & Hnil).
    apply apply_rule_cases in E1 as [[-> ->]|(n & Hn & _ & Hh1 & Ht1 & Hi1 & Hp1)].
    + exists hs. repeat split; auto; now apply Hnil.
    + exists ((pattern rl, repl rl, label rl, n) :: hs).
      rewrite Hh, Hh1, <- app_assoc. simpl.
      repeat split; try congruence.
      * constructor; [exact Hn | exact Hpos].
      * unfold hit_count. simpl. lia.
Qed.

Lemma apply_rule_no_match (rl : rule) (self : PageCorrector) (tx : text) :
  no_match_from (pat rl) None tx -> _apply_rule rl self tx = Some (tx, self).
Proof.
  intros H. unfold _apply_rule, subn, sub.
  rewrite sub_loop_no_match; [reflexivity | lia | exact H].
Qed.

(** A report without rule hits means the rule pass changed nothing. *)
Lemma apply_rules_quiet (self self' : PageCorrector) (tx tx' : text) :
  _apply_rules self tx = Some (tx', self') ->
  rule_hits self' = rule_hits self -> tx' = tx /\ self' = self.
Proof.
  intros H Hh.
  destruct (apply_rules_from_hits _ _ _ H) as (hs & Hh' & _ & _ & _ & _ & Hnil).
  apply Hnil. rewrite Hh in Hh'.
  rewrite <- (app_nil_r (rule_hits self)) in Hh' at 1.
  apply app_inv_head in Hh'. congruence.
Qed.

(* ================================================================== *)
(** * The identifier pass *)
(* ================================================================== *)

Lemma apply_id_fixes_total (self : PageCorrector) (tx : text) :
  exists res, _apply_id_fixes self tx = Some res.
Proof. apply sub_total. Qed.

Lemma correct_total (self : PageCorrector) (tx : text) :
  exists res, correct self tx = Some res.
Proof.
  unfold correct, _apply_rules.
  destruct (apply_rules_from_total RULES self tx) as [[tx1 self1] E].
  rewrite E. apply apply_id_fixes_total.
Qed.

Lemma apply_id_fixes_idem (self self' : PageCorrector) (tx out : text) :
  _apply_id_fixes self tx = Some (out, self') ->
  forall st, _apply_id_fixes st out = Some (out, st).
Proof.
  unfold _apply_id_fixes, sub. intros H st.
  destruct (id_fixes_loop _ _ _ _ H) as ((HR & _) & Hidem).
  rewrite <- (Forall2_same_length HR). apply Hidem.
Qed.

Lemma sub_id_snd (m : Match) (self : PageCorrector) :
  snd (_sub m self) =
  if id_changed m then
    {| page := page self; rule_hits := rule_hits self;
       id_changes := id_changes self ++ [id_entry m];
       total_fixes := total_fixes self + 1 |}
  else self.
Proof.
  unfold _sub, id_changed, id_entry.
  destruct (_fix_doc_id (groups m)) as [fixed ch]. simpl.
  now destruct (negb (text_eqb fixed (group0 m))).
Qed.

Lemma sub_id_fold (ms : list Match) :
  forall self,
    let self' := fold_left (fun st m => snd (_sub m st)) ms self in
    id_changes self' = id_changes self ++ map id_entry (filter id_changed ms)
    /\ total_fixes self' = total_fixes self + length (filter id_changed ms)
    /\ rule_hits self' = rule_hits self /\ page self' = page self.
Proof.
  induction ms as [|m ms IH]; intros self; simpl.
  - rewrite app_nil_r. auto.
  - destruct (IH (snd (_sub m self))) as (Hi & Ht & Hr & Hp).
    rewrite Hi, Ht, Hr, Hp, sub_id_snd.
    destruct (id_changed m); simpl.
    + rewrite <- app_assoc. simpl. repeat split; auto. lia.
    + auto.
Qed.

(* ================================================================== *)
(** * What a substitution replaces *)
(* ================================================================== *)

Lemma rep_suffix (A : Type) (p : ascii -> bool) (k : cursor -> option A)
  (a : A) :
  forall hi lo cur,
    rep p lo hi cur k = Some a ->
    exists cur', k cur' = Some a
                 /\ exists pre, rest cur = pre ++ rest cur'.
Proof.
  induction hi as [|hi IH]; intros lo cur H; simpl in H.
  - destruct lo; [|discriminate]. exists cur. split; [exact H|].
    now exists [].
  - assert (Hstop : (if lo =? 0 then k cur else None) = Some a ->
                    exists cur', k cur' = Some a
                      /\ exists pre, rest cur = pre ++ rest cur').
    { destruct lo; [|discriminate]. intros Hk. exists cur.
      split; [exact Hk|]. now exists []. }
    destruct (rest cur) as [|c s] eqn:Er; [now apply Hstop|].
    destruct (p c); [|now apply Hstop].
    destruct (rep p (pred lo) hi (advance c s cur) k) as [a'|] eqn:E;
      [|now apply Hstop].
    injection H as ->.
    destruct (IH _ _ E) as (cur' & Hk & pre & Hp). exists cur'.
    split; [exact Hk|]. exists (c :: pre). simpl in *. now rewrite Hp.
Qed.

(** A match ends inside the text it started on. *)
Lemma run_suffix (A : Type) (r : regex) :
  forall (k : cursor -> option A) (a : A) cur,
    run r cur k = Some a ->
    exists cur', k cur' = Some a
                 /\ exists pre, rest cur = pre ++ rest cur'.
Proof.
  induction r as [|p|r1 IH1 r2 IH2|p lo hi|r IH|p|p|p];
    intros k a cur H; simpl in H.
  - exists cur. split; [exact H|]. now exists [].
  - destruct (rest cur) as [|c s] eqn:Er; [discriminate|].
    destruct (p c); [|discriminate].
    exists (advance c s cur). split; [exact H|]. now exists [c].
  - apply IH1 in H as (cur1 & H & pre1 & E1).
    apply IH2 in H as (cur2 & H & pre2 & E2).
    exists cur2. split; [exact H|]. exists (pre1 ++ pre2).
    now rewrite E1, E2, app_assoc.
  - exact (@rep_suffix _ p k a hi lo cur H).
  - apply IH in H as (cur1 & H & pre & E).
    exists (capture cur cur1). split; [exact H|]. now exists pre.
  - destruct (rest cur) as [|c s] eqn:Er; [discriminate|].
    destruct (p c); [|discriminate].
    exists cur. split; [exact H|]. exists []. now rewrite Er.
  - exists cur. split; [|now exists []].
    destruct (rest cur) as [|c s]; [exact H|].
    destruct (p c); [discriminate | exact H].
  - exists cur. split; [|now exists []].
    destruct (prev cur) as [c|]; [|exact H].
    destruct (p c); [discriminate | exact H].
Qed.

(** The text a match starts on is the match and what follows it. *)
Lemma match_at_split (r : regex) (pv : option ascii) (s : text) (m : Match) :
  match_at r pv s = Some m -> s = group0 m ++ end_rest m.
Proof.
  unfold match_at. intros H.
  apply run_suffix in H as (cur' & H & pre & E). simpl in E.
  injection H as <-. cbn [group0 end_rest]. subst s.
  rewrite length_app, Nat.add_sub, firstn_app, firstn_all, Nat.sub_diag.
  simpl. now rewrite app_nil_r.
Qed.

Lemma weave_cons (c : ascii) (g0 : text) (igs : list (text * text)) :
  weave (c :: g0) igs = c :: weave g0 igs.
Proof. destruct igs as [|[i g] igs]; reflexivity. Qed.

(** A match that does not shorten the text is empty. *)
Lemma match_at_empty (r : regex) (pv : option ascii) (s : text) (m : Match) :
  match_at r pv s = Some m ->
  (length (end_rest m) <? length s) = false ->
  group0 m = [] /\ end_rest m = s.
Proof.
  intros Em Hlt. apply match_at_split in Em. apply Nat.ltb_ge in Hlt.
  assert (L : length s = length (group0 m) + length (end_rest m))
    by (rewrite Em at 1; apply length_app).
  destruct (group0 m) as [|c g]; [now split|].
  simpl in L. unfold text in *. lia.
Qed.

(** The scan of [subn] visits the matches of [finditer]; the text is
    these matches with the pieces between them, the new text is the
    same pieces with the replacement in the place of each match, and
    the count grows by the number of matches. *)
Lemma sub_loop_weave (r : regex) (rp : text) (fuel : nat) :
  forall pv s n out n' acc,
    sub_loop r (fun _ k => (rp, S k)) fuel pv s n = Some (out, n') ->
    exists ms g0 gs txt,
      sub_loop r collect fuel pv s acc = Some (txt, acc ++ ms)
      /\ n' = n + length ms
      /\ length gs = length ms
      /\ s = weave g0 (combine (map group0 ms) gs)
      /\ out = weave g0 (combine (map (fun _ => rp) ms) gs).
Proof.
  induction fuel as [|fuel IH]; intros pv s n out n' acc H; [discriminate|].
  rewrite sub_loop_S in H. rewrite sub_loop_S.
  destruct (match_at r pv s) as [m|] eqn:Em.
  - pose proof (match_at_split _ _ _ Em) as Hs.
    unfold collect at 1. cbv beta iota.
    destruct (length (end_rest m) <? length s) eqn:Hlt.
    + destruct (sub_loop _ _ fuel (end_prev m) (end_rest m) (S n))
        as [[tl k]|] eqn:E; [|discriminate].
      injection H as <- <-.
      destruct (IH _ _ _ _ _ (acc ++ [m]) E)
        as (ms & g0 & gs & txt & E2 & Hn & Hl & Hw & Ho).
      rewrite E2. exists (m :: ms), [], (g0 :: gs), ([] ++ txt).
      rewrite <- app_assoc. simpl.
      split; [reflexivity|]. split; [lia|]. split; [lia|].
      split; [now rewrite <- Hw | now rewrite <- Ho].
    + destruct (match_at_empty _ _ _ Em Hlt) as [Hg He].
      destruct s as [|c s'].
      * injection H as <- <-.
        exists [m], [], [[]], []. simpl. rewrite Hg, !app_nil_r.
        repeat split; try reflexivity. lia.
      * destruct (sub_loop _ _ fuel (Some c) s' (S n))
          as [[tl k]|] eqn:E; [|discriminate].
        injection H as <- <-.
        destruct (IH _ _ _ _ _ (acc ++ [m]) E)
          as (ms & g0 & gs & txt & E2 & Hn & Hl & Hw & Ho).
        rewrite E2. exists (m :: ms), [], ((c :: g0) :: gs), ([] ++ c :: txt).
        rewrite <- app_assoc. simpl. rewrite Hg, !weave_cons, <- Hw, <- Ho.
        repeat split; try reflexivity; lia.
  - destruct s as [|c s'].
    + injection H as <- <-. exists [], [], [], []. simpl.
      rewrite app_nil_r, Nat.add_0_r. repeat split; reflexivity.
    + destruct (sub_loop _ _ fuel (Some c) s' n) as [[tl k]|] eqn:E;
        [|discriminate].
      injection H as <- <-.
      destruct (IH _ _ _ _ _ acc E)
        as (ms & g0 & gs & txt & E2 & Hn & Hl & Hw & Ho).
      rewrite E2. exists ms, (c :: g0), gs, (c :: txt).
      split; [reflexivity|]. split; [exact Hn|]. split; [exact Hl|].
      split.
      * now rewrite weave_cons, <- Hw.
      * now rewrite weave_cons, <- Ho.
Qed.

(** [re.subn] replaces the matches [finditer] yields, each by the
    replacement, keeps what stands between them, and counts them. *)
Lemma subn_matches (r : regex) (rp s : text) :
  exists new_text ms g0 gs,
    finditer r s = Some ms
    /\ subn r rp s = Some (new_text, length ms)
    /\ length gs = length ms
    /\ s = weave g0 (combine (map group0 ms) gs)
    /\ new_text = weave g0 (combine (map (fun _ => rp) ms) gs).
Proof.
  destruct (subn_total r rp s) as [[new_text n] E].
  pose proof E as E0. unfold subn, sub in E0.
  destruct (@sub_loop_weave _ _ _ _ _ _ _ _ [] E0)
    as (ms & g0 & gs & txt & E2 & Hn & Hl & Hw & Ho).
  exists new_text, ms, g0, gs. simpl in Hn. subst n.
  unfold finditer, sub. rewrite E2. simpl. auto.
Qed.

(** The step of one rule, by the matches of its pattern. *)
Lemma apply_rule_matches (rl : rule) (self : PageCorrector) (tx : text) :
  exists new_text ms g0 gs,
    finditer (pat rl) tx = Some ms
    /\ subn (pat rl) (repl rl) tx = Some (new_text, length ms)
    /\ length gs = length ms
    /\ tx = weave g0 (combine (map group0 ms) gs)
    /\ new_text = weave g0 (combine (map (fun _ => repl rl) ms) gs)
    /\ _apply_rule rl self tx =
       Some (match ms with
             | [] => (tx, self)
             | _ :: _ =>
               (new_text,
                {| page := page self;
                   rule_hits := rule_hits self
                     ++ [(pattern rl, repl rl, label rl, length ms)];
                   id_changes := id_changes self;
                   total_fixes := total_fixes self + length ms |})
             end).
Proof.
  destruct (subn_matches (pat rl) (repl rl) tx)
    as (new_text & ms & g0 & gs & Hf & Hs & Hl & Hw & Ho).
  exists new_text, ms, g0, gs. repeat (split; [assumption|]).
  unfold _apply_rule. rewrite Hs. destruct ms; reflexivity.
Qed.

Lemma hits_of_cons (rl : rule) (rules : list rule) (n : nat)
  (ns : list nat) :
  hits_of (rl :: rules) (n :: ns) =
  (if n =? 0 then [] else [(pattern rl, repl rl, label rl, n)])
  ++ hits_of rules ns.
Proof. unfold hits_of. simpl. destruct (n =? 0); reflexivity. Qed.

Lemma hits_of_positive (rules : list rule) (ns : list nat) :
  Forall (fun h : rule_hit => 0 < snd h) (hits_of rules ns).
Proof.
  unfold hits_of. apply Forall_forall. intros h Hin.
  apply in_map_iff in Hin as ([rl n] & <- & Hin).
  apply filter_In in Hin as [_ Hn]. simpl in *.
  destruct n; [discriminate | lia].
Qed.

Lemma hits_of_total (rules : list rule) :
  forall ns, length ns = length rules ->
    fold_right (fun (h : rule_hit) n => snd h + n) 0 (hits_of rules ns)
    = list_sum ns.
Proof.
  induction rules as [|rl rules IH]; intros [|n ns] L; try discriminate;
    [reflexivity|].
  rewrite hits_of_cons. simpl in L. injection L as L.
  destruct n; simpl; rewrite (IH _ L); reflexivity.
Qed.

(** The pass over a list of rules records, in the order of the list,
    one entry for each rule whose count is not zero. *)
Lemma apply_rules_from_counts (rules : list rule) :
  forall self tx tx' self',
    apply_rules_from rules self tx = Some (tx', self') ->
    exists ns,
      length ns = length rules
      /\ rule_hits self' = rule_hits self ++ hits_of rules ns
      /\ total_fixes self' = total_fixes self + list_sum ns.
Proof.
  induction rules as [|rl rules IH]; intros self tx tx' self' H; simpl in H.
  - injection H as <- <-. exists []. simpl.
    now rewrite app_nil_r, Nat.add_0_r.
  - destruct (_apply_rule rl self tx) as [[tx1 self1]|] eqn:E1;
      [|discriminate].
    destruct (IH _ _ _ _ H) as (ns & HL & Hh & Ht).
    unfold _apply_rule in E1.
    destruct (subn (pat rl) (repl rl) tx) as [[new n]|]; [|discriminate].
    exists (n :: ns). rewrite hits_of_cons. simpl.
    destruct (n =? 0) eqn:En; injection E1 as <- <-.
    + apply Nat.eqb_eq in En. subst n. simpl. auto.
    + simpl in Hh, Ht. rewrite Hh, Ht, <- app_assoc. simpl.
      repeat split; [congruence | lia].
Qed.

(* ================================================================== *)
(** * Page compositor and synthesizer *)
(* ================================================================== *)

Section PlaceLines.

Variable Img : Type.
Variable raises : PrimFloat.float -> PrimFloat.float -> text -> bool.
Variables h_pt step : PrimFloat.float.

Lemma place_lines_frame (lines : list text) :
  forall i (pg : Page Img),
    width (place_lines raises pg h_pt step i lines) = width pg
    /\ height (place_lines raises pg h_pt step i lines) = height pg
    /\ images (place_lines raises pg h_pt step i lines) = images pg.
Proof.
  induction lines as [|l lines IH]; intros i pg; simpl; [auto|].
  destruct (PrimFloat.ltb _ _); [auto|].
  unfold insert_text. destruct (raises _ _ _); [apply IH|].
  destruct (IH (S i) {| width := width pg; height := height pg;
                         images := images pg;
                         text_layer := text_layer pg ++
                           [Placed (of_int margin_x)
                              (PrimFloat.add
                                 (PrimFloat.add (of_int margin_y)
                                    (PrimFloat.mul (of_int i) step))
                                 (of_int font_size)) l font_size 3] |})
    as (W & H & I).
  simpl in *. auto.
Qed.

(** The loop inserts the lines of a prefix, those whose insertion does
    not raise; the prefix ends at the first line that overflows. *)
Lemma place_lines_layer (lines : list text) :
  forall i (pg : Page Img),
  exists k,
    k <= length lines
    /\ text_layer (place_lines raises pg h_pt step i lines) =
       text_layer pg
       ++ map (placed_at step)
            (filter (fun jl => negb (raises (of_int margin_x)
                                       (line_y step (fst jl)) (snd jl)))
                    (firstn k (combine (seq i (length lines)) lines)))
    /\ (forall j, j < k -> overflows h_pt step (i + j) = false)
    /\ (k < length lines -> overflows h_pt step (i + k) = true).
Proof.
  induction lines as [|l lines IH]; intros i pg.
  - exists 0. simpl. rewrite app_nil_r. repeat split; auto; lia.
  - cbn [place_lines].
    fold (line_y step i). fold (overflows h_pt step i).
    destruct (overflows h_pt step i) eqn:Ho.
    + exists 0. simpl. rewrite app_nil_r, Nat.add_0_r.
      repeat split; auto; lia.
    + unfold insert_text.
      destruct (raises (of_int margin_x) (line_y step i) l) eqn:Hr.
      * destruct (IH (S i) pg) as (k & Hk & Hl & Hb & Ha).
        exists (S k). cbn [length firstn seq combine filter fst snd].
        rewrite Hr. cbn [negb]. split; [lia|]. split; [exact Hl|]. split.
        -- intros [|j] Hj; [now rewrite Nat.add_0_r|].
           rewrite Nat.add_succ_r. apply (Hb j). lia.
        -- intros Hlt. rewrite Nat.add_succ_r. apply Ha. lia.
      * match goal with
        | |- context [place_lines raises ?pg' _ _ _ _] =>
          destruct (IH (S i) pg') as (k & Hk & Hl & Hb & Ha)
        end.
        exists (S k). cbn [length firstn seq combine filter fst snd].
        rewrite Hr. cbn [negb map]. split; [lia|]. split.
        -- rewrite Hl. cbn [text_layer]. rewrite <- app_assoc. reflexivity.
        -- split.
           ++ intros [|j] Hj; [now rewrite Nat.add_0_r|].
              rewrite Nat.add_succ_r. apply (Hb j). lia.
           ++ intros Hlt. rewrite Nat.add_succ_r. apply Ha. lia.
Qed.

End PlaceLines.

Lemma fold_left_snoc (A B : Type) (g : A -> B) (l : list A) :
  forall acc, fold_left (fun out x => out ++ [g x]) l acc = acc ++ map g l.
Proof.
  induction l as [|x l IH]; intros acc; simpl.
  - now rewrite app_nil_r.
  - rewrite IH, <- app_assoc. reflexivity.
Qed.

Lemma nth_error_combine (A B : Type) (a : list A) (b : list B) :
  forall i x y,
    nth_error a i = Some x -> nth_error b i = Some y ->
    nth_error (combine a b) i = Some (x, y).
Proof.
  revert b. induction a as [|x0 a IH]; intros [|y0 b] [|i] x y;
    simpl; try discriminate.
  - now intros [= ->] [= ->].
  - apply IH.
Qed.

Lemma combine_truncated (A B : Type) (a : list A) :
  forall b : list B,
    combine a b = combine (firstn (length b) a) (firstn (length a) b).
Proof.
  induction a as [|x a IH]; intros [|y b]; simpl; try reflexivity.
  now rewrite <- IH.
Qed.

(** The save succeeds exactly on a document with a page. *)
Lemma save_pages (Img : Type) (out : list (Page Img)) :
  1 <= length out -> save out = Returns out.
Proof. destruct out; simpl; [lia | reflexivity]. Qed.

Lemma save_no_page (Img : Type) (out : list (Page Img)) :
  length out = 0 ->
  save out = Raises (ValueError "cannot save with zero pages").
Proof. destruct out; simpl; [reflexivity | discriminate]. Qed.

Lemma build_pdf_map
  (raises : PrimFloat.float -> PrimFloat.float -> text -> bool)
  (png_pages : list (RasterPage bytes)) (texts : list text) :
  build_pdf raises png_pages texts =
  save (map (fun pt => build_page raises (fst pt) (snd pt))
            (combine png_pages texts)).
Proof. unfold build_pdf. now rewrite fold_left_snoc. Qed.

Lemma build_searchable_pdf_map
  (raises : PrimFloat.float -> PrimFloat.float -> text -> bool)
  (image_sources : list (RasterPage OcrApp.img_src))
  (pages_markdown : list text) :
  OcrApp.build_searchable_pdf raises image_sources pages_markdown =
  save (map (fun pm => OcrApp.build_page raises (fst pm) (snd pm))
            (combine image_sources pages_markdown)).
Proof. unfold OcrApp.build_searchable_pdf. now rewrite fold_left_snoc. Qed.

(** Both programs lay the text out with the same code. *)
Lemma ocr_app_insert_invisible_text
  (raises : PrimFloat.float -> PrimFloat.float -> text -> bool)
  (pg : Page OcrApp.img_src) (tx : text)
  (w_pt h_pt : PrimFloat.float) :
  OcrApp._insert_invisible_text raises pg tx w_pt h_pt
  = _insert_invisible_text raises pg tx w_pt h_pt.
Proof. reflexivity. Qed.

(** The pages a pairing of images and texts yields, by index. *)
Lemma nth_error_map_combine (A B C : Type) (g : A * B -> C)
  (a : list A) (b : list B) (i : nat) (x : A) (y : B) :
  nth_error a i = Some x -> nth_error b i = Some y ->
  nth_error (map g (combine a b)) i = Some (g (x, y)).
Proof.
  intros Hx Hy. now rewrite nth_error_map, (nth_error_combine _ _ _ Hx Hy).
Qed.

(* ================================================================== *)
(** * The claims *)
(* ================================================================== *)

(** C1, as stated, fails: on the text PRIII the engine returns PR1I,
    and a second run on PR1I returns PR1, a different text, with one
    more rule hit. *)
Lemma C1_second_run_differs :
  correct (new_corrector 1) (T "PRIII")
  = Some (T "PR1I",
          {| page := 1;
             rule_hits := [("PR[I1l]{1,2}", T "PR1", "PR{I|II|1} → PR1", 1)];
             id_changes := []; total_fixes := 1 |})
  /\ correct (new_corrector 1) (T "PR1I")
     = Some (T "PR1",
             {| page := 1;
                rule_hits := [("PR[I1l]{1,2}", T "PR1", "PR{I|II|1} → PR1", 1)];
                id_changes := []; total_fixes := 1 |})
  /\ text_eqb (T "PR1") (T "PR1I") = false.
Proof. vm_compute. auto. Qed.

(** C1, amended: for every text [t] with corrected text [u], the
    identifier pass run again on [u] returns [u] and records nothing;
    and whenever the rule pass records no hit on [u], a whole second run
    returns [u] with an empty report: no rule hit, no identifier change,
    a total-fix counter of zero. *)
Theorem C1_second_run_when_no_rule_hits (p : nat) (t u : text)
  (r : PageCorrector) :
  correct (new_corrector p) t = Some (u, r) ->
  (forall self, _apply_id_fixes self u = Some (u, self))
  /\ (forall q u1 r1,
        _apply_rules (new_corrector q) u = Some (u1, r1) ->
        rule_hits r1 = [] ->
        correct (new_corrector q) u = Some (u, new_corrector q)).
Proof.
  unfold correct. intros H.
  destruct (_apply_rules (new_corrector p) t) as [[t1 s1]|] eqn:E1;
    [|discriminate].
  pose proof (apply_id_fixes_idem _ _ H) as Hid.
  split; [exact Hid|].
  intros q u1 r1 E2 Hq.
  destruct (apply_rules_quiet _ _ E2) as [-> ->]; [exact Hq|].
  rewrite E2. apply Hid.
Qed.

Lemma C1_second_run_witness :
  correct (new_corrector 1) (T "26437-RIA-OOI-DR-CLG-PC-O0205")
  = Some (T "26437-RIA-001-DR-CLG-PC-00205",
          {| page := 1;
             rule_hits := [("OOI", T "001", "OOI → 001      [O=0, I=1]", 1)];
             id_changes :=
               [(T "26437-RIA-001-DR-CLG-PC-O0205",
                 T "26437-RIA-001-DR-CLG-PC-00205",
                 [(T "O0205", T "00205")])];
             total_fixes := 2 |})
  /\ ((forall self,
         _apply_id_fixes self (T "26437-RIA-001-DR-CLG-PC-00205")
         = Some (T "26437-RIA-001-DR-CLG-PC-00205", self))
      /\ (forall q u1 r1,
            _apply_rules (new_corrector q) (T "26437-RIA-001-DR-CLG-PC-00205")
            = Some (u1, r1) ->
            rule_hits r1 = [] ->
            correct (new_corrector q) (T "26437-RIA-001-DR-CLG-PC-00205")
            = Some (T "26437-RIA-001-DR-CLG-PC-00205", new_corrector q))).
Proof.
  split; [vm_compute; reflexivity|].
  apply (@C1_second_run_when_no_rule_hits 1
           (T "26437-RIA-OOI-DR-CLG-PC-O0205")
           (T "26437-RIA-001-DR-CLG-PC-00205")
           {| page := 1;
              rule_hits := [("OOI", T "001", "OOI → 001      [O=0, I=1]", 1)];
              id_changes :=
                [(T "26437-RIA-001-DR-CLG-PC-O0205",
                  T "26437-RIA-001-DR-CLG-PC-00205",
                  [(T "O0205", T "00205")])];
              total_fixes := 2 |}).
  vm_compute. reflexivity.
Defined.

(** C2, as stated, fails: on the raw identifier
    26437-RIA-OOI-DR-CLG-PC-O0205 the report holds one identifier change
    with one field edit, not two. *)
Lemma C2_one_field_edit :
  match correct (new_corrector 1) (T "26437-RIA-OOI-DR-CLG-PC-O0205") with
  | Some (_, r) =>
    map (fun ch => length (snd ch)) (id_changes r) = [1]
  | None => False
  end.
Proof. vm_compute. reflexivity. Qed.

(** C2, amended: on the text 26437-RIA-OOI-DR-CLG-PC-O0205 the engine
    yields 26437-RIA-001-DR-CLG-PC-00205; the third field is corrected by
    the rule OOI -> 001 and reported as one rule hit; the report holds one
    identifier change with exactly one field edit, O0205 -> 00205 for
    the seventh field; the fields RIA and DR are untouched; the total-fix
    counter is 2. *)
Theorem C2_identifier_example :
  correct (new_corrector 1) (T "26437-RIA-OOI-DR-CLG-PC-O0205")
  = Some (T "26437-RIA-001-DR-CLG-PC-00205",
          {| page := 1;
             rule_hits := [("OOI", T "001", "OOI → 001      [O=0, I=1]", 1)];
             id_changes :=
               [(T "26437-RIA-001-DR-CLG-PC-O0205",
                 T "26437-RIA-001-DR-CLG-PC-00205",
                 [(T "O0205", T "00205")])];
             total_fixes := 2 |})
  /\ _apply_rules (new_corrector 1) (T "26437-RIA-OOI-DR-CLG-PC-O0205")
     = Some (T "26437-RIA-001-DR-CLG-PC-O0205",
             {| page := 1;
                rule_hits := [("OOI", T "001", "OOI → 001      [O=0, I=1]", 1)];
                id_changes := []; total_fixes := 1 |})
  /\ option_map (@groups)
       (match_at DOC_ID_RE None (T "26437-RIA-001-DR-CLG-PC-O0205"))
     = Some [T "26437"; T "RIA"; T "001"; T "DR"; T "CLG"; T "PC"; T "O0205"]
  /\ _fix_doc_id
       [T "26437"; T "RIA"; T "001"; T "DR"; T "CLG"; T "PC"; T "O0205"]
     = (T "26437-RIA-001-DR-CLG-PC-00205", [(T "O0205", T "00205")]).
Proof. vm_compute. auto. Qed.

Section CompositorClaims.

Import PrimFloat.
Open Scope nat_scope.

(** C3, as stated, fails: on a page 68 points high the usable span is
    28 points, two line heights; five text lines do not fit at natural
    pitch, the pitch is compressed, and only four lines are inserted:
    the fifth is dropped. *)
Lemma C3_fifth_line_dropped :
  length (text_lines five_lines) = 5
  /\ PrimFloat.sub 68 (of_int (margin_y * 2)) = PrimFloat.mul 2 line_h
  /\ PrimFloat.leb (PrimFloat.mul (of_int 5) line_h)
       (PrimFloat.sub 68 (of_int (margin_y * 2))) = false
  /\ length (text_layer (_insert_invisible_text never_raises
                           (new_page unit 100 68) five_lines 100 68)) = 4.
Proof. vm_compute. auto. Qed.

(** C3, amended: when the text lines do not fit at natural pitch the
    pitch is compressed to usableHeight / lineCount; the compositor
    then inserts the lines in order up to, and not including, the first
    one whose baseline 20 + i * pitch + 10 exceeds pageHeight - 20, and
    drops that line and all later ones.  For a page 68 points high
    (usable span of two line heights) and five text lines, exactly four
    lines are inserted and the fifth is dropped. *)
Theorem C3_lines_until_overflow (Img : Type)
  (raises : PrimFloat.float -> PrimFloat.float -> text -> bool)
  (pg : Page Img) (tx : text) (w_pt h_pt : PrimFloat.float) :
  let lines := text_lines tx in
  let n := length lines in
  let usable_h := PrimFloat.sub h_pt (of_int (margin_y * 2)) in
  let step := line_step h_pt n in
  step = (if PrimFloat.leb (PrimFloat.mul (of_int n) line_h) usable_h
          then line_h else PrimFloat.div usable_h (of_int n))
  /\ (exists k,
        k <= n
        /\ text_layer (_insert_invisible_text raises pg tx w_pt h_pt) =
           text_layer pg
           ++ map (placed_at step)
                (filter (fun jl => negb (raises (of_int margin_x)
                                           (line_y step (fst jl)) (snd jl)))
                        (firstn k (combine (seq 0 n) lines)))
        /\ (forall j, j < k -> overflows h_pt step j = false)
        /\ (k < n -> overflows h_pt step k = true))
  /\ map (fun pl => (at_y pl, line_text pl))
       (text_layer (_insert_invisible_text never_raises
                      (new_page unit 100 68) five_lines 100 68))
     = [ (line_y (PrimFloat.div 28 5) 0, T "a");
         (line_y (PrimFloat.div 28 5) 1, T "b");
         (line_y (PrimFloat.div 28 5) 2, T "c");
         (line_y (PrimFloat.div 28 5) 3, T "d") ]
  /\ overflows 68 (PrimFloat.div 28 5) 4 = true.
Proof.
  cbv zeta. split; [reflexivity|]. split.
  - unfold _insert_invisible_text.
    destruct (text_lines tx) as [|l ls] eqn:El.
    + exists 0. simpl. rewrite app_nil_r. repeat split; auto; lia.
    + destruct (place_lines_layer raises h_pt
                  (line_step h_pt (length (l :: ls))) (l :: ls) 0 pg)
        as (k & Hk & Hl & Hb & Ha).
      exists k. split; [exact Hk|]. split; [exact Hl|]. split.
      * intros j Hj. apply (Hb j Hj).
      * intros Hlt. rewrite <- (Nat.add_0_l k). now apply Ha.
  - vm_compute. auto.
Qed.

End CompositorClaims.

(** C4, as stated, fails: from no page image and no text (N = 0) the
    synthesizer does not emit a document of 0 pages: the save raises
    ValueError, in [build_pdf] of ria.py and in [build_searchable_pdf]
    of ocr_app.py. *)
Lemma C4_zero_pages_raise :
  build_pdf never_raises [] []
  = Raises (ValueError "cannot save with zero pages")
  /\ OcrApp.build_searchable_pdf never_raises [] []
     = Raises (ValueError "cannot save with zero pages")
  /\ ~ (exists out,
          build_pdf never_raises [] [] = Returns out /\ length out = 0).
Proof.
  split; [reflexivity|]. split; [reflexivity|].
  intros (out & H & _). discriminate H.
Qed.

(** C4, amended: for N page images and N texts with N at least 1 the
    synthesizer saves a document of exactly N pages, and page i is the
    one composed from image i and text i, in input order; for N = 0 it
    saves nothing, the save raises ValueError.  So for [build_pdf] of
    ria.py and for [build_searchable_pdf] of ocr_app.py. *)
Theorem C4_page_count_and_order
  (raises : PrimFloat.float -> PrimFloat.float -> text -> bool)
  (png_pages : list (RasterPage bytes))
  (image_sources : list (RasterPage OcrApp.img_src))
  (texts : list text) :
  length png_pages = length texts ->
  length image_sources = length texts ->
  (1 <= length texts ->
   (exists out,
      build_pdf raises png_pages texts = Returns out
      /\ length out = length png_pages
      /\ forall i img tx,
           nth_error png_pages i = Some img -> nth_error texts i = Some tx ->
           nth_error out i = Some (build_page raises img tx))
   /\ (exists out_doc,
         OcrApp.build_searchable_pdf raises image_sources texts
         = Returns out_doc
         /\ length out_doc = length image_sources
         /\ forall i img tx,
              nth_error image_sources i = Some img ->
              nth_error texts i = Some tx ->
              nth_error out_doc i = Some (OcrApp.build_page raises img tx)))
  /\ (length texts = 0 ->
      build_pdf raises png_pages texts
      = Raises (ValueError "cannot save with zero pages")
      /\ OcrApp.build_searchable_pdf raises image_sources texts
         = Raises (ValueError "cannot save with zero pages")).
Proof.
  intros L1 L2. rewrite build_pdf_map, build_searchable_pdf_map. split.
  - intros N. split.
    + eexists. split; [apply save_pages|split].
      * rewrite length_map, length_combine. lia.
      * rewrite length_map, length_combine. lia.
      * intros i img tx Hi Ht.
        now rewrite (@nth_error_map_combine _ _ _ _ _ _ _ _ _ Hi Ht).
    + eexists. split; [apply save_pages|split].
      * rewrite length_map, length_combine. lia.
      * rewrite length_map, length_combine. lia.
      * intros i img tx Hi Ht.
        now rewrite (@nth_error_map_combine _ _ _ _ _ _ _ _ _ Hi Ht).
  - intros N. split; apply save_no_page;
      rewrite length_map, length_combine; lia.
Qed.

Lemma C4_page_count_witness :
  exists out,
    build_pdf never_raises
      [MkRaster [Byte.x89; Byte.x50] (100, 200) None;
       MkRaster [Byte.x89; Byte.x51] (300, 400) None]
      [five_lines; T "x"] = Returns out
    /\ length out = 2
    /\ nth_error out 1
       = Some (build_page never_raises
                 (MkRaster [Byte.x89; Byte.x51] (300, 400) None) (T "x")).
Proof.
  destruct (@C4_page_count_and_order never_raises
              [MkRaster [Byte.x89; Byte.x50] (100, 200) None;
               MkRaster [Byte.x89; Byte.x51] (300, 400) None]
              [MkRaster (OcrApp.FromBytes [Byte.x89; Byte.x50])
                        (100, 200) None;
               MkRaster (OcrApp.FromPath "scan.png") (300, 400) None]
              [five_lines; T "x"] eq_refl eq_refl) as [H _].
  destruct (H (le_S 1 1 (le_n 1))) as [(out & E & HL & HN) _].
  exists out. split; [exact E|]. split; [exact HL|].
  exact (HN 1 (MkRaster [Byte.x89; Byte.x51] (300, 400) None) (T "x")
            eq_refl eq_refl).
Defined.

(** C9, as stated, fails: with one page image and no text the lengths
    differ and the shorter is 0; the synthesizer does not silently
    emit 0 pages, the save raises ValueError. *)
Lemma C9_empty_texts_raise :
  build_pdf never_raises [MkRaster [Byte.x89; Byte.x50] (100, 200) None] []
  = Raises (ValueError "cannot save with zero pages")
  /\ OcrApp.build_searchable_pdf never_raises
       [MkRaster (OcrApp.FromPath "scan.png") (100, 200) None] []
     = Raises (ValueError "cannot save with zero pages")
  /\ ~ (exists out,
          build_pdf never_raises
            [MkRaster [Byte.x89; Byte.x50] (100, 200) None] []
          = Returns out
          /\ length out = Nat.min 1 0).
Proof.
  split; [reflexivity|]. split; [reflexivity|].
  intros (out & H & _). discriminate H.
Qed.

(** C9, amended: the pairing truncates: the synthesizer composes as
    many pages as the shorter of the two lists has entries, from the
    leading images and texts, and ignores the surplus of the longer
    list.  When the shorter list has an entry, the document saved has
    these pages, and it has one page per image exactly when there are
    at least as many texts as images; when the shorter list is empty,
    the save raises ValueError and no document is written. *)
Theorem C9_zip_truncates
  (raises : PrimFloat.float -> PrimFloat.float -> text -> bool)
  (png_pages : list (RasterPage bytes))
  (image_sources : list (RasterPage OcrApp.img_src))
  (texts : list text) :
  ((1 <= Nat.min (length png_pages) (length texts) ->
    exists out,
      build_pdf raises png_pages texts = Returns out
      /\ length out = Nat.min (length png_pages) (length texts)
      /\ (forall i img tx,
            nth_error png_pages i = Some img -> nth_error texts i = Some tx ->
            nth_error out i = Some (build_page raises img tx))
      /\ (length out = length png_pages
          <-> length png_pages <= length texts))
   /\ (Nat.min (length png_pages) (length texts) = 0 ->
       build_pdf raises png_pages texts
       = Raises (ValueError "cannot save with zero pages"))
   /\ build_pdf raises png_pages texts
      = build_pdf raises
          (firstn (length texts) png_pages) (firstn (length png_pages) texts))
  /\ ((1 <= Nat.min (length image_sources) (length texts) ->
       exists out_doc,
         OcrApp.build_searchable_pdf raises image_sources texts
         = Returns out_doc
         /\ length out_doc = Nat.min (length image_sources) (length texts)
         /\ (forall i img tx,
               nth_error image_sources i = Some img ->
               nth_error texts i = Some tx ->
               nth_error out_doc i = Some (OcrApp.build_page raises img tx))
         /\ (length out_doc = length image_sources
             <-> length image_sources <= length texts))
      /\ (Nat.min (length image_sources) (length texts) = 0 ->
          OcrApp.build_searchable_pdf raises image_sources texts
          = Raises (ValueError "cannot save with zero pages"))
      /\ OcrApp.build_searchable_pdf raises image_sources texts
         = OcrApp.build_searchable_pdf raises
             (firstn (length texts) image_sources)
             (firstn (length image_sources) texts)).
Proof.
  rewrite !build_pdf_map, !build_searchable_pdf_map.
  rewrite <- !combine_truncated.
  split; (split; [|split; [|reflexivity]]).
  - intros N. eexists. split; [apply save_pages|split; [|split]].
    + now rewrite length_map, length_combine.
    + now rewrite length_map, length_combine.
    + intros i img tx Hi Ht. now rewrite (@nth_error_map_combine _ _ _ _ _ _ _ _ _ Hi Ht).
    + rewrite length_map, length_combine. lia.
  - intros N. apply save_no_page. now rewrite length_map, length_combine.
  - intros N. eexists. split; [apply save_pages|split; [|split]].
    + now rewrite length_map, length_combine.
    + now rewrite length_map, length_combine.
    + intros i img tx Hi Ht. now rewrite (@nth_error_map_combine _ _ _ _ _ _ _ _ _ Hi Ht).
    + rewrite length_map, length_combine. lia.
  - intros N. apply save_no_page. now rewrite length_map, length_combine.
Qed.

Lemma C9_zip_truncates_witness :
  exists out,
    build_pdf never_raises
      [MkRaster [Byte.x89; Byte.x50] (100, 200) None;
       MkRaster [Byte.x89; Byte.x51] (300, 400) None]
      [T "x"] = Returns out
    /\ length out = 1
    /\ nth_error out 0
       = Some (build_page never_raises
                 (MkRaster [Byte.x89; Byte.x50] (100, 200) None) (T "x")).
Proof.
  destruct (@C9_zip_truncates never_raises
              [MkRaster [Byte.x89; Byte.x50] (100, 200) None;
               MkRaster [Byte.x89; Byte.x51] (300, 400) None]
              [MkRaster (OcrApp.FromPath "scan.png") (100, 200) None]
              [T "x"]) as [[H _] _].
  destruct (H (le_n 1)) as (out & E & HL & HN & _).
  exists out. split; [exact E|]. split; [exact HL|].
  exact (HN 0 (MkRaster [Byte.x89; Byte.x50] (100, 200) None) (T "x")
            eq_refl eq_refl).
Defined.

Lemma id_match_groups (pv : option ascii) (s : text) (m : Match) :
  match_at DOC_ID_RE pv s = Some m ->
  exists d s2 s3 s4 s5 s6 s7, groups m = [d; s2; s3; s4; s5; s6; s7].
Proof.
  intros H. apply doc_id_match_iff in H. destruct H as (_ & Hok & _).
  destruct (id_groups_inv Hok) as (d & s2 & s3 & s4 & s5 & s6 & s7 & E & _).
  repeat eexists. exact E.
Qed.

(** C5: in every identifier match each field classified Digit is
    rewritten character by character, O and o to 0, and I, l and L to
    1, whatever surrounds them, and no other character is altered; this
    is what [_fix_digit_seg] computes on every string. *)
Theorem C5_digit_fields_rewritten (pv : option ascii) (s : text)
  (m : Match) :
  match_at DOC_ID_RE pv s = Some m ->
  (forall f, _fix_digit_seg f = map confusion_fix f)
  /\ (confusion_fix "O" = "0"%char /\ confusion_fix "o" = "0"%char
      /\ confusion_fix "I" = "1"%char /\ confusion_fix "l" = "1"%char
      /\ confusion_fix "L" = "1"%char
      /\ forall c, one_of "OoIlL" c = false -> confusion_fix c = c)
  /\ exists fields,
       length (groups m) = 7 /\ length fields = 7
       /\ fst (_fix_doc_id (groups m)) = join (T "-") fields
       /\ forall i raw,
            nth_error (groups m) i = Some raw ->
            nth_error SEG_TYPE i = Some D ->
            nth_error fields i = Some (map confusion_fix raw).
Proof.
  intros H. split; [exact fix_digit_seg_map|]. split.
  { repeat split; try reflexivity.
    intros [[] [] [] [] [] [] [] []]; vm_compute; congruence. }
  destruct (id_match_groups _ _ H) as (d & s2 & s3 & s4 & s5 & s6 & s7 & E).
  exists (fixed_fields (groups m)).
  assert (L : length (groups m) = 7) by now rewrite E.
  split; [exact L|]. split; [now apply fixed_fields_length|]. split.
  - now rewrite fix_doc_id_spec.
  - intros i raw Hi Hk.
    exact (fixed_fields_nth _ _ Hi Hk).
Qed.

Lemma C5_digit_fields_witness :
  match_at DOC_ID_RE None sample_id = Some sample_match
  /\ exists fields,
       length fields = 7
       /\ fst (_fix_doc_id (groups sample_match)) = join (T "-") fields
       /\ forall i raw,
            nth_error (groups sample_match) i = Some raw ->
            nth_error SEG_TYPE i = Some D ->
            nth_error fields i = Some (map confusion_fix raw).
Proof.
  assert (H : match_at DOC_ID_RE None sample_id = Some sample_match)
    by (vm_compute; reflexivity).
  split; [exact H|].
  destruct (@C5_digit_fields_rewritten None sample_id sample_match H)
    as (_ & _ & fields & _ & L & E & F).
  exists fields. split; [exact L|]. split; [exact E | exact F].
Defined.

(** C6: in every identifier match each field classified Mixed, the
    second to the sixth, stands verbatim in the reconstructed
    identifier; only the first and the seventh field can be reported as
    edited.  So the identifier 26437-8lR-001-DR-CLG-PC-O0205 keeps its
    org code 8lR while its last field becomes 00205. *)
Theorem C6_mixed_fields_verbatim (pv : option ascii) (s : text)
  (m : Match) :
  match_at DOC_ID_RE pv s = Some m ->
  (exists fields,
     length fields = 7
     /\ fst (_fix_doc_id (groups m)) = join (T "-") fields
     /\ forall i raw,
          nth_error (groups m) i = Some raw ->
          nth_error SEG_TYPE i = Some M ->
          nth_error fields i = Some raw)
  /\ (forall i, nth_error SEG_TYPE i = Some M <-> 1 <= i <= 5)
  /\ (forall raw fixed,
        In (raw, fixed) (snd (_fix_doc_id (groups m))) ->
        nth_error (groups m) 0 = Some raw
        \/ nth_error (groups m) 6 = Some raw)
  /\ correct (new_corrector 1) sample_id
     = Some (T "26437-8lR-001-DR-CLG-PC-00205",
             {| page := 1; rule_hits := [];
                id_changes := [(sample_id, T "26437-8lR-001-DR-CLG-PC-00205",
                                [(T "O0205", T "00205")])];
                total_fixes := 1 |}).
Proof.
  intros H.
  destruct (id_match_groups _ _ H) as (d & s2 & s3 & s4 & s5 & s6 & s7 & E).
  split; [|split; [|split]].
  - exists (fixed_fields (groups m)).
    split; [apply fixed_fields_length; now rewrite E|]. split.
    + now rewrite fix_doc_id_spec.
    + intros i raw Hi Hk. exact (fixed_fields_nth _ _ Hi Hk).
  - intros i. unfold SEG_TYPE.
    do 7 (destruct i as [|i]; [simpl; split; [intros; try discriminate; lia
                                            | intros; try reflexivity; lia]|]).
    simpl. split; [now destruct i | lia].
  - intros raw fixed. rewrite fix_doc_id_spec, E. cbn [snd].
    unfold field_changes. cbn [combine SEG_TYPE filter fix_field fst snd].
    rewrite !text_eqb_refl. cbn [negb].
    destruct (negb (text_eqb (map confusion_fix d) d));
      destruct (negb (text_eqb (map confusion_fix s7) s7));
      cbn [map In fst snd]; intros Hin;
      repeat match goal with
             | H : _ \/ _ |- _ => destruct H
             | H : (_, _) = (_, _) |- _ => injection H as <- <-
             | H : False |- _ => destruct H
             end; auto.
  - vm_compute. reflexivity.
Qed.

Lemma C6_mixed_fields_witness :
  match_at DOC_ID_RE None sample_id = Some sample_match
  /\ exists fields,
       fst (_fix_doc_id (groups sample_match)) = join (T "-") fields
       /\ forall i raw,
            nth_error (groups sample_match) i = Some raw ->
            nth_error SEG_TYPE i = Some M ->
            nth_error fields i = Some raw.
Proof.
  assert (H : match_at DOC_ID_RE None sample_id = Some sample_match)
    by (vm_compute; reflexivity).
  split; [exact H|].
  destruct (@C6_mixed_fields_verbatim None sample_id sample_match H)
    as ((fields & _ & E & F) & _).
  exists fields. split; [exact E | exact F].
Defined.



(** C8: the rule pass returns on every text and every report.  The
    rules are applied in the order of the table, each on the text and
    the report the earlier ones produced.  The step of a rule replaces
    the matches of its pattern, the non-overlapping matches a scan from
    left to right finds, each by the replacement of the rule, and keeps
    what stands between them; when there is a match the new text goes
    on and one entry with the number of matches is appended to the
    report, which adds this number to the total-fix counter; a rule
    whose pattern matches nowhere, or whose substitution count is zero,
    leaves the text and the report as they are.  So the pass appends,
    in table order, one entry for each rule with a count that is not
    zero, and the total-fix counter grows by the sum of the counts.
    On the text 0002B the first rule gives 00028, which the ninth rule
    turns back: both are reported, in this order. *)
Theorem C8_rule_pass_total :
  (forall self tx, exists tx' self', _apply_rules self tx = Some (tx', self'))
  /\ (forall rs1 rl rs2 self tx,
        RULES = rs1 ++ rl :: rs2 ->
        exists t1 c1 t2 c2,
          apply_rules_from rs1 self tx = Some (t1, c1)
          /\ _apply_rule rl c1 t1 = Some (t2, c2)
          /\ _apply_rules self tx = apply_rules_from rs2 c2 t2)
  /\ (forall rs1 rs2 self tx,
        apply_rules_from (rs1 ++ rs2) self tx =
        match apply_rules_from rs1 self tx with
        | Some (tx1, self1) => apply_rules_from rs2 self1 tx1
        | None => None
        end)
  /\ (forall rl self tx,
        exists new_text ms g0 gs,
          finditer (pat rl) tx = Some ms
          /\ subn (pat rl) (repl rl) tx = Some (new_text, length ms)
          /\ length gs = length ms
          /\ tx = weave g0 (combine (map group0 ms) gs)
          /\ new_text = weave g0 (combine (map (fun _ => repl rl) ms) gs)
          /\ _apply_rule rl self tx =
             Some (match ms with
                   | [] => (tx, self)
                   | _ :: _ =>
                     (new_text,
                      {| page := page self;
                         rule_hits := rule_hits self
                           ++ [(pattern rl, repl rl, label rl, length ms)];
                         id_changes := id_changes self;
                         total_fixes := total_fixes self + length ms |})
                   end))
  /\ (forall rl self tx,
        no_match_from (pat rl) None tx ->
        subn (pat rl) (repl rl) tx = Some (tx, 0)
        /\ _apply_rule rl self tx = Some (tx, self))
  /\ (forall rl self tx new_text,
        subn (pat rl) (repl rl) tx = Some (new_text, 0) ->
        _apply_rule rl self tx = Some (tx, self))
  /\ (forall self tx tx' self',
        _apply_rules self tx = Some (tx', self') ->
        exists ns,
          length ns = length RULES
          /\ rule_hits self' = rule_hits self ++ hits_of RULES ns
          /\ Forall (fun h => 0 < snd h) (hits_of RULES ns)
          /\ total_fixes self' =
             total_fixes self
             + fold_right (fun h n => snd h + n) 0 (hits_of RULES ns)
          /\ total_fixes self' = total_fixes self + list_sum ns)
  /\ _apply_rules (new_corrector 1) (T "0002B")
     = Some (T "0002B",
             {| page := 1;
                rule_hits := [("0002B", T "00028", label RULE_1, 1);
                              ("028", T "02B", label RULE_9, 1)];
                id_changes := [];
                total_fixes := 2 |}).
Proof.
  split; [|split; [|split; [|split; [|split; [|split; [|split]]]]]].
  - intros self tx.
    destruct (apply_rules_from_total RULES self tx) as [[tx' self'] E].
    eauto.
  - intros rs1 rl rs2 self tx HR. unfold _apply_rules. rewrite HR.
    rewrite apply_rules_from_app.
    destruct (apply_rules_from_total rs1 self tx) as [[t1 c1] E1].
    rewrite E1. cbn [apply_rules_from].
    destruct (apply_rule_total rl c1 t1) as [[t2 c2] E2]. rewrite E2.
    exists t1, c1, t2, c2. auto.
  - exact apply_rules_from_app.
  - exact apply_rule_matches.
  - intros rl self tx H. split; [|now apply apply_rule_no_match].
    unfold subn, sub. rewrite sub_loop_no_match; [reflexivity | lia | exact H].
  - intros rl self tx new_text H. unfold _apply_rule. now rewrite H.
  - intros self tx tx' self' H.
    destruct (apply_rules_from_counts _ _ _ H) as (ns & HL & Hh & Ht).
    exists ns. split; [exact HL|]. split; [exact Hh|].
    split; [apply hits_of_positive|].
    split; [|exact Ht]. now rewrite hits_of_total.
  - vm_compute. reflexivity.
Qed.

(** C10: the digit-field fix is idempotent, and its result holds none
    of the characters O, o, I, l and L. *)
Theorem C10_fix_digit_seg_idempotent (s : text) :
  _fix_digit_seg (_fix_digit_seg s) = _fix_digit_seg s
  /\ forallb (fun c => negb (one_of "OoIlL" c)) (_fix_digit_seg s) = true.
Proof.
  rewrite !fix_digit_seg_map. split.
  - rewrite map_map. apply map_ext. apply confusion_fix_idem.
  - rewrite forallb_forall. intros c Hin.
    apply in_map_iff in Hin as (c0 & <- & _).
    destruct c0 as [[] [] [] [] [] [] [] []]; reflexivity.
Qed.

(* ================================================================== *)
(** * Further facts: the matcher consumes what the pattern needs *)
(* ================================================================== *)

Lemma rep_consumes (A : Type) (p : ascii -> bool) (k : cursor -> option A)
  (a : A) :
  forall hi lo cur,
    rep p lo hi cur k = Some a ->
    exists cur', k cur' = Some a
                 /\ length (rest cur') + lo <= length (rest cur).
Proof.
  induction hi as [|hi IH]; intros lo cur H; simpl in H.
  - destruct lo; [|discriminate]. exists cur. split; [exact H | lia].
  - destruct (rest cur) as [|c s] eqn:Er.
    + destruct lo; [|discriminate]. exists cur. rewrite Er. split; auto.
    + assert (Hstop : (if lo =? 0 then k cur else None) = Some a ->
                      exists cur', k cur' = Some a
                        /\ length (rest cur') + lo <= length (c :: s)).
      { destruct lo; [|discriminate]. intros Hk. exists cur.
        rewrite Er. split; [exact Hk | simpl; lia]. }
      destruct (p c); [|now apply Hstop].
      destruct (rep p (pred lo) hi (advance c s cur) k) as [a'|] eqn:E;
        [|now apply Hstop].
      injection H as ->.
      destruct (IH _ _ E) as (cur' & Hk & Hl). exists cur'.
      split; [exact Hk|]. simpl in *. lia.
Qed.

Lemma run_consumes (A : Type) (r : regex) :
  forall (k : cursor -> option A) (a : A) cur,
    run r cur k = Some a ->
    exists cur', k cur' = Some a
                 /\ length (rest cur') + min_len r <= length (rest cur).
Proof.
  induction r as [|p|r1 IH1 r2 IH2|p lo hi|r IH|p|p|p];
    intros k a cur H; simpl in H.
  - exists cur. split; [exact H | simpl; unfold text in *; try rewrite Er; simpl; lia].
  - destruct (rest cur) as [|c s] eqn:Er; [discriminate|].
    destruct (p c); [|discriminate].
    exists (advance c s cur). split; [exact H | simpl; unfold text in *; try rewrite Er; simpl; lia].
  - apply IH1 in H as (cur1 & H & L1).
    apply IH2 in H as (cur2 & H & L2).
    exists cur2. split; [exact H | simpl; unfold text in *; try rewrite Er; simpl; lia].
  - now apply (rep_consumes p k hi).
  - apply IH in H as (cur1 & H & L1).
    exists (capture cur cur1). split; [exact H | simpl in *; unfold text in *; lia].
  - destruct (rest cur) as [|c s] eqn:Er; [discriminate|].
    destruct (p c); [|discriminate].
    exists cur. split; [exact H | simpl; unfold text in *; try rewrite Er; simpl; lia].
  - exists cur. split; [|simpl; unfold text in *; try rewrite Er; simpl; lia].
    destruct (rest cur) as [|c s]; [exact H|].
    destruct (p c); [discriminate | exact H].
  - exists cur. split; [|simpl; unfold text in *; try rewrite Er; simpl; lia].
    destruct (prev cur) as [c|]; [|exact H].
    destruct (p c); [discriminate | exact H].
Qed.

Lemma match_at_consumes (r : regex) (pv : option ascii) (s : text)
  (m : Match) :
  match_at r pv s = Some m -> length (end_rest m) + min_len r <= length s.
Proof.
  unfold match_at. intros H.
  apply run_consumes in H as (cur' & H & L).
  injection H as <-. exact L.
Qed.

(** A scan whose replacements are no longer than the least match does
    not lengthen the text. *)
Lemma sub_loop_length (St : Type) (r : regex)
  (f : Match -> St -> text * St) :
  (forall m st, length (fst (f m st)) <= min_len r) ->
  forall fuel pv s st out st',
    sub_loop r f fuel pv s st = Some (out, st') -> length out <= length s.
Proof.
  intros Hf. induction fuel as [|fuel IH]; intros pv s st out st' H;
    [discriminate|].
  rewrite sub_loop_S in H.
  destruct (match_at r pv s) as [m|] eqn:Em.
  - pose proof (match_at_consumes _ _ _ Em) as Lm.
    pose proof (Hf m st) as Lf.
    destruct (f m st) as [o st1]. simpl in Lf.
    destruct (length (end_rest m) <? length s) eqn:Hlt.
    + destruct (sub_loop r f fuel (end_prev m) (end_rest m) st1)
        as [[tl st2]|] eqn:E; [|discriminate].
      injection H as <- <-. apply IH in E. rewrite length_app. lia.
    + apply Nat.ltb_ge in Hlt.
      destruct s as [|c s'].
      * injection H as <- <-. simpl in *. lia.
      * destruct (sub_loop r f fuel (Some c) s' st1)
          as [[tl st2]|] eqn:E; [|discriminate].
        injection H as <- <-. apply IH in E.
        rewrite length_app. simpl in *. lia.
  - destruct s as [|c s']; [now injection H as <- <-|].
    destruct (sub_loop r f fuel (Some c) s' st)
      as [[tl st2]|] eqn:E; [|discriminate].
    injection H as <- <-. apply IH in E. simpl. lia.
Qed.

Lemma rules_repl_short :
  Forall (fun rl => length (repl rl) <= min_len (pat rl)) RULES.
Proof.
  unfold RULES.
  repeat (apply Forall_cons; [vm_compute; lia|]). apply Forall_nil.
Qed.

Lemma apply_rules_from_length (rules : list rule) :
  Forall (fun rl => length (repl rl) <= min_len (pat rl)) rules ->
  forall self tx tx' self',
    apply_rules_from rules self tx = Some (tx', self') ->
    length tx' <= length tx.
Proof.
  induction 1 as [|rl rules Hrl _ IH]; intros self tx tx' self' H;
    simpl in H.
  - injection H as <- _. lia.
  - destruct (_apply_rule rl self tx) as [[tx1 self1]|] eqn:E1;
      [|discriminate].
    apply IH in H.
    apply apply_rule_cases in E1 as [[-> _]|(n & _ & Es & _)]; [exact H|].
    unfold subn, sub in Es.
    apply sub_loop_length in Es; [lia|]. intros m st. exact Hrl.
Qed.

(* ================================================================== *)
(** * Further facts: what the identifier pass changes *)
(* ================================================================== *)

Lemma kept_list_refl (s : text) : Forall2 kept_or_fixed s s.
Proof. induction s; constructor; auto. now left. Qed.

Lemma kept_fix_field (k : seg_kind) (s : text) :
  Forall2 kept_or_fixed s (fix_field k s).
Proof.
  destruct k; simpl; [|apply kept_list_refl].
  induction s; simpl; constructor; auto. now right.
Qed.

Lemma fixed_fields_kept_of (kinds : list seg_kind) :
  forall ws, length ws <= length kinds ->
    Forall2 (Forall2 kept_or_fixed) ws (fixed_fields_of kinds ws).
Proof.
  unfold fixed_fields_of.
  induction kinds as [|k kinds IH]; intros [|w ws]; simpl; intros L;
    try constructor; try lia.
  - apply kept_fix_field.
  - apply IH. lia.
Qed.

Lemma id_fixes_kept (fuel : nat) :
  forall pv s st out st',
    sub_loop DOC_ID_RE _sub fuel pv s st = Some (out, st') ->
    Forall2 kept_or_fixed s out.
Proof.
  induction fuel as [|fuel IH]; intros pv s st out st' H; [discriminate|].
  rewrite sub_loop_S in H.
  destruct (match_at DOC_ID_RE pv s) as [m|] eqn:Em.
  - pose proof Em as Hm. apply doc_id_match_iff in Hm.
    pose proof (sub_id_fst m st) as Hfst.
    destruct (_sub m st) as [o st1]. cbn [fst] in Hfst. subst o.
    rewrite (proj2 (Nat.ltb_lt _ _) (id_shape_consumes Hm)) in H.
    destruct (sub_loop DOC_ID_RE _sub fuel (end_prev m) (end_rest m) st1)
      as [[tl st2]|] eqn:E; [|discriminate].
    injection H as <- <-.
    destruct Hm as (_ & Hok & G0 & Es & _).
    rewrite Es, G0. apply Forall2_app; [|eapply IH; eauto].
    apply join_rel; [apply kept_list_refl|].
    apply fixed_fields_kept_of.
    pose proof (Forall2_same_length Hok) as L. simpl in L |- *.
    unfold text in *. lia.
  - destruct s as [|c s']; [injection H as <- <-; constructor|].
    destruct (sub_loop DOC_ID_RE _sub fuel (Some c) s' st)
      as [[tl st2]|] eqn:E; [|discriminate].
    injection H as <- <-. constructor; [now left | eapply IH; eauto].
Qed.

(** The identifier pass only ever adds to the list of identifier
    changes; if it adds nothing, it returns the text as it was. *)
Lemma id_fixes_unreported (fuel : nat) :
  forall pv s st out st',
    sub_loop DOC_ID_RE _sub fuel pv s st = Some (out, st') ->
    length (id_changes st) <= length (id_changes st')
    /\ (length (id_changes st') = length (id_changes st) ->
        out = s /\ st' = st).
Proof.
  induction fuel as [|fuel IH]; intros pv s st out st' H; [discriminate|].
  rewrite sub_loop_S in H.
  destruct (match_at DOC_ID_RE pv s) as [m|] eqn:Em.
  - pose proof Em as Hm. apply doc_id_match_iff in Hm.
    pose proof (sub_id_fst m st) as Hfst.
    pose proof (sub_id_snd m st) as Hsnd.
    destruct (_sub m st) as [o st1]. cbn [fst snd] in Hfst, Hsnd. subst o.
    rewrite (proj2 (Nat.ltb_lt _ _) (id_shape_consumes Hm)) in H.
    destruct (sub_loop DOC_ID_RE _sub fuel (end_prev m) (end_rest m) st1)
      as [[tl st2]|] eqn:E; [|discriminate].
    injection H as <- <-.
    destruct (IH _ _ _ _ _ E) as (Hle & Heq).
    destruct Hm as (_ & _ & _ & Es & _).
    unfold id_changed in Hsnd. rewrite fix_doc_id_spec in Hsnd.
    cbn [fst] in Hsnd.
    destruct (text_eqb (join (T "-") (fixed_fields (groups m))) (group0 m))
      eqn:Eq; cbn [negb] in Hsnd; subst st1.
    + apply text_eqb_eq in Eq. split; [exact Hle|].
      intros L. destruct (Heq L) as [-> ->].
      change ["-"%char] with (T "-"). rewrite Eq. auto.
    + cbn [id_changes] in Hle, Heq. rewrite length_app in Hle. simpl in Hle.
      split; [lia|]. intros L. lia.
  - destruct s as [|c s'].
    + injection H as <- <-. auto.
    + destruct (sub_loop DOC_ID_RE _sub fuel (Some c) s' st)
        as [[tl st2]|] eqn:E; [|discriminate].
      injection H as <- <-.
      destruct (IH _ _ _ _ _ E) as (Hle & Heq). split; [exact Hle|].
      intros L. destruct (Heq L) as [-> ->]. auto.
Qed.

Lemma hits_total_zero (hs : list rule_hit) :
  Forall (fun h => 0 < hit_count h) hs -> hits_total hs = 0 -> hs = [].
Proof.
  destruct 1 as [|h hs Hh _]; [reflexivity|]. simpl. lia.
Qed.

(** The report of a run: the total is the sum of the rule counts plus
    the number of identifier changes. *)
Lemma correct_report (self self' : PageCorrector) (tx tx' : text) :
  correct self tx = Some (tx', self') ->
  exists hs ids,
    rule_hits self' = rule_hits self ++ hs
    /\ id_changes self' = id_changes self ++ ids
    /\ total_fixes self' = total_fixes self + hits_total hs + length ids
    /\ Forall (fun h => 0 < hit_count h) hs
    /\ page self' = page self
    /\ (hs = [] -> ids = [] -> tx' = tx /\ self' = self).
Proof.
  unfold correct. intros H.
  destruct (_apply_rules self tx) as [[tx1 self1]|] eqn:E1; [|discriminate].
  destruct (apply_rules_from_hits _ _ _ E1)
    as (hs & Hh & Hpos & Ht & Hid & Hpg & Hnil).
  pose proof H as H2. unfold _apply_id_fixes, sub in H2.
  destruct (@sub_loop_visits _ _ _ _ _ _ _ _ _ [] H2)
    as (ms & txt & _ & Hst).
  destruct (sub_id_fold ms self1) as (Hi & Ht2 & Hr & Hp2).
  cbv zeta in Hi, Ht2, Hr, Hp2. rewrite <- Hst in Hi, Ht2, Hr, Hp2.
  exists hs, (map id_entry (filter id_changed ms)).
  split; [congruence|]. split; [congruence|].
  split; [rewrite length_map; lia|]. split; [exact Hpos|].
  split; [congruence|].
  intros -> Hids. destruct (Hnil eq_refl) as [-> ->].
  apply (id_fixes_unreported _ _ _ _ H2).
  rewrite Hi, Hids, app_nil_r. reflexivity.
Qed.

(* ================================================================== *)
(** * Further facts: lines, page geometry, the per-file pipeline *)
(* ================================================================== *)

Lemma splitlines_from_unfold (cur : text) (c : ascii) (s : text) :
  splitlines_from cur (c :: s) =
  if Ascii.eqb c "013" then
    match s with
    | c' :: s'' =>
      if Ascii.eqb c' "010" then cur :: splitlines_from [] s''
      else cur :: splitlines_from [] s
    | [] => cur :: splitlines_from [] s
    end
  else if is_linebreak c then cur :: splitlines_from [] s
  else splitlines_from (cur ++ [c]) s.
Proof. reflexivity. Qed.

Lemma cr_lf_linebreak (c : ascii) :
  Ascii.eqb c "013" = true \/ Ascii.eqb c "010" = true ->
  is_linebreak c = true.
Proof.
  intros [H|H]; apply Ascii.eqb_eq in H; subst c; reflexivity.
Qed.

(** The lines are made of the characters of the text that do not
    break lines. *)
Lemma splitlines_from_chars (P : ascii -> bool) (n : nat) :
  forall s cur,
    length s <= n ->
    forallb P cur = true ->
    (forall c, In c s -> is_linebreak c = false -> P c = true) ->
    Forall (fun l => forallb P l = true) (splitlines_from cur s).
Proof.
  induction n as [|n IH]; intros s cur Hn Hcur Hs.
  - destruct s; [|simpl in Hn; lia].
    simpl. destruct cur; repeat constructor. exact Hcur.
  - destruct s as [|c s].
    + simpl. destruct cur; repeat constructor. exact Hcur.
    + simpl in Hn. rewrite splitlines_from_unfold.
      assert (Htl : forall c0, In c0 s -> is_linebreak c0 = false ->
                               P c0 = true).
      { intros c0 Hin. apply Hs. now right. }
      destruct (Ascii.eqb c "013") eqn:Ecr.
      * destruct s as [|c' s''].
        -- constructor; [exact Hcur|]. apply IH; auto. simpl. lia.
        -- destruct (Ascii.eqb c' "010").
           ++ constructor; [exact Hcur|]. apply IH; auto.
              ** simpl in *. lia.
              ** intros c0 Hin. apply Htl. now right.
           ++ constructor; [exact Hcur|]. apply IH; auto. lia.
      * destruct (is_linebreak c) eqn:Elb.
        -- constructor; [exact Hcur|]. apply IH; auto. lia.
        -- apply IH; auto; [lia|].
           rewrite forallb_app, Hcur. simpl.
           rewrite (Hs c (or_introl eq_refl) Elb). reflexivity.
Qed.

Lemma splitlines_chars (P : ascii -> bool) (s : text) :
  (forall c, In c s -> is_linebreak c = false -> P c = true) ->
  Forall (fun l => forallb P l = true) (splitlines s).
Proof.
  intros H. apply (@splitlines_from_chars P (length s)); auto.
Qed.

(** Splitting loses the line breaks and nothing else. *)
Lemma splitlines_from_concat (n : nat) :
  forall s cur,
    length s <= n ->
    concat (splitlines_from cur s)
    = cur ++ filter (fun c => negb (is_linebreak c)) s.
Proof.
  induction n as [|n IH]; intros s cur Hn.
  - destruct s; [|simpl in Hn; lia].
    simpl. destruct cur; simpl; now rewrite ?app_nil_r.
  - destruct s as [|c s].
    + simpl. destruct cur; simpl; now rewrite ?app_nil_r.
    + simpl in Hn. rewrite splitlines_from_unfold.
      destruct (Ascii.eqb c "013") eqn:Ecr.
      * cbn [filter]. rewrite (cr_lf_linebreak c (or_introl Ecr)). cbn [negb].
        destruct s as [|c' s''].
        -- cbn [concat]. rewrite IH by (simpl; lia). reflexivity.
        -- destruct (Ascii.eqb c' "010") eqn:Elf.
           ++ cbn [concat filter].
              rewrite (cr_lf_linebreak c' (or_intror Elf)). cbn [negb].
              rewrite IH by (simpl in *; lia). reflexivity.
           ++ cbn [concat]. rewrite IH by lia. reflexivity.
      * cbn [filter]. destruct (is_linebreak c) eqn:Elb; cbn [negb].
        -- cbn [concat]. rewrite IH by lia. reflexivity.
        -- rewrite IH by lia. now rewrite <- app_assoc.
Qed.

Lemma space_not_strip (l : text) :
  forallb is_space l = true -> strip_nonempty l = false.
Proof.
  unfold strip_nonempty. induction l as [|c l IH]; simpl; [reflexivity|].
  intros H. apply andb_prop in H as [Hc H]. now rewrite Hc, IH.
Qed.

Lemma blank_text_lines (tx : text) :
  forallb is_space tx = true -> text_lines tx = [].
Proof.
  intros H. unfold text_lines.
  assert (HF : Forall (fun l => forallb is_space l = true) (splitlines tx)).
  { apply splitlines_chars. intros c Hin _.
    rewrite forallb_forall in H. now apply H. }
  induction HF as [|l ls Hl _ IH]; simpl; [reflexivity|].
  now rewrite (space_not_strip _ Hl).
Qed.

Lemma place_lines_attrs (Img : Type)
  (raises : PrimFloat.float -> PrimFloat.float -> text -> bool)
  (h_pt step : PrimFloat.float) (P : placed_line -> Prop)
  (lines : list text) :
  (forall y l, In l lines -> P (Placed (of_int margin_x) y l font_size 3)) ->
  forall i (pg : Page Img),
    Forall P (text_layer pg) ->
    Forall P (text_layer (place_lines raises pg h_pt step i lines)).
Proof.
  induction lines as [|l lines IH]; intros HP i pg Hpg; simpl; [exact Hpg|].
  destruct (PrimFloat.ltb _ _); [exact Hpg|].
  assert (HP' : forall y l0, In l0 lines ->
                  P (Placed (of_int margin_x) y l0 font_size 3)).
  { intros y l0 Hin. apply HP. now right. }
  unfold insert_text. destruct (raises _ _ _); apply IH; auto.
  simpl. apply Forall_app. split; [exact Hpg|].
  constructor; [|constructor]. apply HP. now left.
Qed.

Lemma Forall2_nth_error_both (A B : Type) (R : A -> B -> Prop)
  (l : list A) (l' : list B) :
  Forall2 R l l' ->
  forall j x y, nth_error l j = Some x -> nth_error l' j = Some y -> R x y.
Proof.
  induction 1 as [|a b l l' Hab _ IH]; intros [|j] x y Hx Hy;
    simpl in *; try discriminate.
  - injection Hx as <-. injection Hy as <-. exact Hab.
  - eapply IH; eauto.
Qed.

Section ProcessFileFacts.

Variable ocr_process : nat -> RasterPage bytes -> ocr_response.

Lemma process_pages_spec (pairs : list (nat * RasterPage bytes)) :
  forall texts total,
  exists results,
    Forall2 (fun ip fr =>
               correct (new_corrector (fst ip + 1))
                 (ocr_page ocr_process (fst ip) (snd ip)) = Some fr)
            pairs results
    /\ fold_left (process_page ocr_process) pairs (Some (texts, total))
       = Some (texts ++ map fst results,
               total + list_sum (map (fun fr => total_fixes (snd fr)) results)).
Proof.
  induction pairs as [|[i png] pairs IH]; intros texts total.
  - exists []. simpl. rewrite app_nil_r, Nat.add_0_r. split; constructor.
  - simpl.
    destruct (correct_total (new_corrector (i + 1))
                (ocr_page ocr_process i png)) as [[fixed corr] E].
    rewrite E.
    destruct (IH (texts ++ [fixed])
                (if total_fixes corr =? 0 then total
                 else total + total_fixes corr)) as (results & HF & Hfold).
    exists ((fixed, corr) :: results). split.
    + constructor; [exact E | exact HF].
    + rewrite Hfold. simpl. rewrite <- app_assoc. simpl.
      destruct (total_fixes corr =? 0) eqn:Ez.
      * apply Nat.eqb_eq in Ez. rewrite Ez. reflexivity.
      * now rewrite Nat.add_assoc.
Qed.

End ProcessFileFacts.

(* ================================================================== *)
(** * Further properties *)
(* ================================================================== *)

(** X1: [DOC_ID_RE] finds a match at a position exactly when the text
    there has the ID shape: seven fields within their classes and
    length bounds, joined by hyphens, neither preceded nor followed by a
    word character; the match object holds these fields as its
    groups. *)
Theorem X1_doc_id_pattern_shape (pv : option ascii) (s : text) (m : Match) :
  match_at DOC_ID_RE pv s = Some m <->
  match pv with Some c => is_word c = false | None => True end
  /\ Forall2 seg_ok
       [ (is_digit, 2, 6); (is_word, 2, 4); (is_word, 2, 5); (is_word, 2, 3);
         (is_word, 2, 5); (is_word, 2, 5); (is_word, 4, 6) ] (groups m)
  /\ group0 m = join (T "-") (groups m)
  /\ s = group0 m ++ end_rest m
  /\ match end_rest m with [] => True | c :: _ => is_word c = false end
  /\ end_prev m = prev_after pv (group0 m).
Proof. apply doc_id_match_iff. Qed.

Lemma id_groups_all (G : list text) :
  Forall2 seg_ok ID_SEGS G ->
  exists d s2 s3 s4 s5 s6 s7,
    G = [d; s2; s3; s4; s5; s6; s7]
    /\ seg_ok (is_digit, 2, 6) d /\ seg_ok (is_word, 2, 4) s2
    /\ seg_ok (is_word, 2, 5) s3 /\ seg_ok (is_word, 2, 3) s4
    /\ seg_ok (is_word, 2, 5) s5 /\ seg_ok (is_word, 2, 5) s6
    /\ seg_ok (is_word, 4, 6) s7.
Proof.
  unfold ID_SEGS. intros H.
  repeat match goal with
         | H : Forall2 _ (_ :: _) _ |- _ => inversion H; clear H; subst
         | H : Forall2 _ [] _ |- _ => inversion H; clear H; subst
         end.
  do 7 eexists. split; [reflexivity|].
  repeat (split; [assumption|]). assumption.
Qed.

(** X2: every identifier match has seven hyphen-free groups and spans
    between 22 and 40 characters of the text. *)
Theorem X2_doc_id_match_bounds (pv : option ascii) (s : text) (m : Match) :
  match_at DOC_ID_RE pv s = Some m ->
  length (groups m) = 7
  /\ Forall (fun g => forallb is_word g = true) (groups m)
  /\ 22 <= length (group0 m) <= 40
  /\ firstn (length (group0 m)) s = group0 m.
Proof.
  intros H. apply doc_id_match_iff in H.
  destruct H as (_ & Hok & G0 & Es & _).
  destruct (id_groups_all Hok)
    as (d & s2 & s3 & s4 & s5 & s6 & s7 & E
        & [F1 B1] & [F2 B2] & [F3 B3] & [F4 B4] & [F5 B5] & [F6 B6]
        & [F7 B7]).
  rewrite E in *.
  split; [reflexivity|]. split.
  - repeat constructor; auto using forallb_forall.
    match goal with
    | H : forallb is_digit ?d = true |- forallb is_word ?d = true =>
      apply forallb_forall; intros c Hc; apply digit_is_word;
        rewrite forallb_forall in H; now apply H
    end.
  - split.
    + rewrite G0. cbn [join]. rewrite !length_app. cbn [length T].
      unfold text in *. simpl. lia.
    + rewrite Es. rewrite firstn_app, Nat.sub_diag, firstn_all. simpl.
      apply app_nil_r.
Qed.

Lemma X2_doc_id_match_witness :
  match_at DOC_ID_RE None sample_id = Some sample_match
  /\ length (groups sample_match) = 7
  /\ 22 <= length (group0 sample_match) <= 40.
Proof.
  assert (H : match_at DOC_ID_RE None sample_id = Some sample_match)
    by (vm_compute; reflexivity).
  split; [exact H|].
  destruct (@X2_doc_id_match_bounds None sample_id sample_match H)
    as (L & _ & B & _).
  split; [exact L | exact B].
Defined.

(** X3: in an identifier match the first field, matched by digits
    only, is never altered: the reassembled identifier differs from the
    raw one in the seventh field at most, has the same length, and the
    list of field edits holds at most the edit of the seventh field. *)
Theorem X3_only_last_field_edited (pv : option ascii) (s : text)
  (m : Match) :
  match_at DOC_ID_RE pv s = Some m ->
  exists d s2 s3 s4 s5 s6 s7,
    groups m = [d; s2; s3; s4; s5; s6; s7]
    /\ _fix_doc_id (groups m)
       = (join (T "-") [d; s2; s3; s4; s5; s6; map confusion_fix s7],
          if text_eqb (map confusion_fix s7) s7 then []
          else [(s7, map confusion_fix s7)])
    /\ length (fst (_fix_doc_id (groups m))) = length (group0 m).
Proof.
  intros H. apply doc_id_match_iff in H.
  destruct H as (_ & Hok & G0 & _).
  destruct (id_groups_inv Hok) as (d & s2 & s3 & s4 & s5 & s6 & s7
                                     & E & (Fd & _) & _).
  exists d, s2, s3, s4, s5, s6, s7. split; [exact E|].
  assert (Hfix : _fix_doc_id (groups m)
       = (join (T "-") [d; s2; s3; s4; s5; s6; map confusion_fix s7],
          if text_eqb (map confusion_fix s7) s7 then []
          else [(s7, map confusion_fix s7)])).
  { rewrite fix_doc_id_spec, E.
    unfold fixed_fields, fixed_fields_of, field_changes.
    cbn [combine SEG_TYPE map filter fix_field fst snd].
    rewrite (digits_fixed _ Fd), !text_eqb_refl. cbn [negb].
    now destruct (text_eqb (map confusion_fix s7) s7). }
  split; [exact Hfix|].
  rewrite Hfix, G0, E. cbn [fst join].
  rewrite !length_app, length_map. reflexivity.
Qed.

Lemma X3_only_last_field_witness :
  match_at DOC_ID_RE None sample_id = Some sample_match
  /\ exists d s2 s3 s4 s5 s6 s7,
       groups sample_match = [d; s2; s3; s4; s5; s6; s7]
       /\ _fix_doc_id (groups sample_match)
          = (join (T "-") [d; s2; s3; s4; s5; s6; map confusion_fix s7],
             if text_eqb (map confusion_fix s7) s7 then []
             else [(s7, map confusion_fix s7)]).
Proof.
  assert (H : match_at DOC_ID_RE None sample_id = Some sample_match)
    by (vm_compute; reflexivity).
  split; [exact H|].
  destruct (@X3_only_last_field_edited None sample_id sample_match H)
    as (d & s2 & s3 & s4 & s5 & s6 & s7 & E & F & _).
  exists d, s2, s3, s4, s5, s6, s7. split; [exact E | exact F].
Defined.

(** X4: the identifier pass returns on every text, keeps its length,
    and changes a character only into the digit its confusion fix
    names: every character of the result is the one of the input at
    that place, or O, o turned 0, or I, l, L turned 1. *)
Theorem X4_id_pass_characterwise (self : PageCorrector) (tx : text) :
  exists out self',
    _apply_id_fixes self tx = Some (out, self')
    /\ length out = length tx
    /\ Forall2 (fun c c' => c' = c \/ c' = confusion_fix c) tx out
    /\ rule_hits self' = rule_hits self /\ page self' = page self.
Proof.
  destruct (apply_id_fixes_total self tx) as [[out self'] E].
  exists out, self'. split; [exact E|].
  pose proof E as E2. unfold _apply_id_fixes, sub in E2.
  pose proof (id_fixes_kept _ _ _ _ E2) as HK.
  split; [symmetry; apply (Forall2_same_length HK)|].
  split; [exact HK|].
  destruct (@sub_loop_visits _ _ _ _ _ _ _ _ _ [] E2) as (ms & txt & _ & Hst).
  destruct (sub_id_fold ms self) as (_ & _ & Hr & Hp).
  cbv zeta in Hr, Hp. rewrite <- Hst in Hr, Hp. auto.
Qed.

(** X5: a run of the engine on a fresh corrector returns on every
    text; its total-fix counter is the sum of the rule-hit counts plus
    the number of identifier changes; and a run that reports nothing
    (counter zero) returns the text as it was: no change goes
    unreported. *)
Theorem X5_report_accounts_for_changes (p : nat) (t : text) :
  exists u r,
    correct (new_corrector p) t = Some (u, r)
    /\ page r = p
    /\ total_fixes r = hits_total (rule_hits r) + length (id_changes r)
    /\ Forall (fun h => 0 < hit_count h) (rule_hits r)
    /\ (total_fixes r = 0 -> u = t /\ r = new_corrector p).
Proof.
  destruct (correct_total (new_corrector p) t) as [[u r] E].
  exists u, r. split; [exact E|].
  destruct (correct_report _ _ E)
    as (hs & ids & Hh & Hi & Ht & Hpos & Hpg & Hnil).
  simpl in Hh, Hi, Ht, Hpg.
  rewrite Hh, Hi. split; [exact Hpg|]. split; [exact Ht|].
  split; [exact Hpos|].
  intros Hz. rewrite Hz in Ht.
  assert (Hhs : hits_total hs = 0) by lia.
  apply (hits_total_zero Hpos) in Hhs.
  assert (Hids : ids = []) by (destruct ids; [reflexivity | simpl in Ht; lia]).
  now apply Hnil.
Qed.

(** X6: correction never lengthens a text: each rule replaces a match
    by a text no longer than the match, and the identifier pass keeps
    the length. *)
Theorem X6_correct_never_lengthens (self : PageCorrector) (t : text) :
  exists u r, correct self t = Some (u, r) /\ length u <= length t.
Proof.
  destruct (correct_total self t) as [[u r] E].
  exists u, r. split; [exact E|].
  unfold correct in E.
  destruct (_apply_rules self t) as [[t1 s1]|] eqn:E1; [|discriminate].
  apply (apply_rules_from_length rules_repl_short) in E1.
  unfold _apply_id_fixes, sub in E.
  apply id_fixes_kept in E. apply Forall2_same_length in E.
  unfold text in *. lia.
Qed.

(** X7: [process_file] of ria.py, from the rasterised pages on and
    for every answer of the OCR service.  The OCR text of page [i] is
    corrected by a fresh corrector numbered [i + 1], and this always
    returns.  With at least one page the call returns: the document
    saved has one page per rasterised page, page [i] composed from
    image [i] and the corrected text [i]; the markdown file, when
    asked for, joins the corrected texts with the page separator; the
    number returned is the sum of the pages' total-fix counters.  With
    no page the call raises the ValueError of the save, and neither
    document nor markdown file is written. *)
Theorem X7_process_file_pages
  (raises : PrimFloat.float -> PrimFloat.float -> text -> bool)
  (ocr_process : nat -> RasterPage bytes -> ocr_response)
  (pages_png : list (RasterPage bytes)) (out_md : bool) :
  exists results,
    length results = length pages_png
    /\ (forall i png,
          nth_error pages_png i = Some png ->
          exists fr,
            nth_error results i = Some fr
            /\ correct (new_corrector (i + 1))
                 (ocr_page_text (ocr_process i png)) = Some fr)
    /\ match pages_png with
       | [] =>
         process_file raises ocr_process pages_png out_md
         = Some (Raises (ValueError "cannot save with zero pages"))
       | _ :: _ =>
         exists doc,
           process_file raises ocr_process pages_png out_md
           = Some (Returns
                     (doc,
                      if out_md then Some (join PAGE_SEP (map fst results))
                      else None,
                      list_sum (map (fun fr => total_fixes (snd fr)) results)))
           /\ length doc = length pages_png
           /\ forall i png fr,
                nth_error pages_png i = Some png ->
                nth_error results i = Some fr ->
                nth_error doc i = Some (build_page raises png (fst fr))
       end.
Proof.
  destruct (process_pages_spec ocr_process
              (combine (seq 0 (length pages_png)) pages_png) [] 0)
    as (results & HF & Hfold).
  exists results.
  assert (HL : length results = length pages_png).
  { rewrite <- (Forall2_same_length HF), length_combine, length_seq.
    apply Nat.min_id. }
  split; [exact HL|]. split.
  - intros i png Hi.
    assert (Hlt : i < length pages_png).
    { apply nth_error_Some. congruence. }
    assert (Hp : nth_error (combine (seq 0 (length pages_png)) pages_png) i
                 = Some (i, png)).
    { apply nth_error_combine; [|exact Hi].
      rewrite nth_error_nth' with (d := 0) by (rewrite length_seq; exact Hlt).
      now rewrite seq_nth. }
    destruct (nth_error results i) as [fr|] eqn:Er.
    2:{ apply nth_error_None in Er. lia. }
    exists fr. split; [reflexivity|].
    exact (Forall2_nth_error_both HF _ Hp Er).
  - assert (HP : process_file raises ocr_process pages_png out_md
                 = Some (match save (map (fun pt => build_page raises
                                                      (fst pt) (snd pt))
                                         (combine pages_png
                                                  (map fst results))) with
                         | Raises e => Raises e
                         | Returns doc =>
                           Returns
                             (doc,
                              if out_md
                              then Some (join PAGE_SEP (map fst results))
                              else None,
                              list_sum (map (fun fr => total_fixes (snd fr))
                                            results))
                         end)).
    { unfold process_file. rewrite Hfold, build_pdf_map. reflexivity. }
    rewrite HP. clear HP Hfold HF.
    destruct pages_png as [|png0 pages_png].
    + reflexivity.
    + rewrite save_pages.
      2:{ rewrite length_map, length_combine, length_map, HL. simpl. lia. }
      eexists. split; [reflexivity|]. split.
      * rewrite length_map, length_combine, length_map, HL.
        apply Nat.min_id.
      * intros i png fr Hi Hr.
        now rewrite (@nth_error_map_combine _ _ _ _ _ _ _ _ _ Hi
                       (map_nth_error fst _ _ Hr)).
Qed.

(** X8: a page text without any character that is not white space
    leaves the page as it is (image only); every line the compositor
    places holds a character that is not white space and no line break;
    and splitting a text into lines loses its line breaks only. *)
Theorem X8_text_lines_edge_cases :
  (forall (Img : Type) raises (pg : Page Img) tx w_pt h_pt,
      forallb is_space tx = true ->
      _insert_invisible_text raises pg tx w_pt h_pt = pg)
  /\ (forall tx l,
        In l (text_lines tx) ->
        existsb (fun c => negb (is_space c)) l = true
        /\ forallb (fun c => negb (is_linebreak c)) l = true)
  /\ (forall tx,
        concat (splitlines tx) = filter (fun c => negb (is_linebreak c)) tx).
Proof.
  split; [|split].
  - intros Img raises pg tx w_pt h_pt H.
    unfold _insert_invisible_text. now rewrite (blank_text_lines _ H).
  - intros tx l Hin. unfold text_lines in Hin.
    apply filter_In in Hin as [Hin Hs]. split; [exact Hs|].
    assert (HF : Forall (fun l0 => forallb (fun c => negb (is_linebreak c)) l0
                                   = true) (splitlines tx)).
    { apply splitlines_chars. intros c _ Hc. now rewrite Hc. }
    rewrite Forall_forall in HF. now apply HF.
  - intros tx. unfold splitlines.
    now rewrite (@splitlines_from_concat (length tx)).
Qed.

Section GeometryFacts.

Import PrimFloat.
Open Scope nat_scope.

(** X9: the resolution a page is sized with is never zero: a missing,
    or zero, [dpi] entry gives 96; a pair gives its first component. *)
Theorem X9_dpi_never_zero (Src : Type) (img : RasterPage Src) :
  PrimFloat.eqb (dpi_of img) 0 = false
  /\ (info_dpi img = None -> dpi_of img = 96%float)
  /\ (forall x y, info_dpi img = Some (DpiPair x y) ->
                  PrimFloat.eqb x 0 = false -> dpi_of img = x)
  /\ (forall x y, info_dpi img = Some (DpiPair x y) ->
                  PrimFloat.eqb x 0 = true -> dpi_of img = 96%float).
Proof.
  unfold dpi_of. split; [|split; [|split]].
  - destruct (info_dpi img) as [[x y|x]|]; cbv zeta;
      try (destruct (PrimFloat.eqb x 0) eqn:E; [reflexivity | exact E]).
    reflexivity.
  - now intros ->.
  - intros x y -> E. now rewrite E.
  - intros x y -> E. now rewrite E.
Qed.

(** X10: on a composed page the image is the only visible layer item
    and fills the rectangle from (0, 0) to (width, height); the size is
    the pixel size times 72 over the resolution; and every line of the
    text layer is invisible (render mode 3), of font size 10, at the
    left margin 10, and is one of the non-blank lines of the text. *)
Theorem X10_composed_page_layers (Src : Type)
  (raises : PrimFloat.float -> PrimFloat.float -> text -> bool)
  (img : RasterPage Src) (tx : text) :
  let pg := build_page raises img tx in
  width pg = PrimFloat.div (of_int (fst (size img) * 72)) (dpi_of img)
  /\ height pg = PrimFloat.div (of_int (snd (size img) * 72)) (dpi_of img)
  /\ images pg = [(0%float, 0%float, width pg, height pg, source img)]
  /\ Forall (fun pl => render_mode pl = 3 /\ fontsize pl = 10
                       /\ at_x pl = of_int 10
                       /\ In (line_text pl) (text_lines tx))
            (text_layer pg).
Proof.
  cbv zeta. unfold build_page. destruct (size img) as [w_px h_px].
  cbn [fst snd]. unfold _insert_invisible_text.
  set (w_pt := PrimFloat.div (of_int (w_px * 72)) (dpi_of img)).
  set (h_pt := PrimFloat.div (of_int (h_px * 72)) (dpi_of img)).
  set (pg0 := insert_image (new_page Src w_pt h_pt) 0 0 w_pt h_pt (source img)).
  destruct (text_lines tx) as [|l ls] eqn:El.
  - simpl. repeat split; constructor.
  - destruct (place_lines_frame raises h_pt
                (line_step h_pt (length (l :: ls))) (l :: ls) 0 pg0)
      as (W & H & I).
    rewrite W, H, I. repeat split.
    apply place_lines_attrs; [|constructor].
    intros y l0 Hin. repeat split. exact Hin.
Qed.

End GeometryFacts.

(* ================================================================== *)
(** * The first rule is undone by the rule 028 -> 02B *)
(* ================================================================== *)

Lemma undone_refl (s : text) : undone 0 s s.
Proof. induction s; constructor; auto. Qed.

Lemma undone_length (q : nat) (a b : text) :
  undone q a b -> length a = length b.
Proof. induction 1; simpl; congruence. Qed.

Lemma undone_app_same (x a b : text) :
  undone 0 a b -> undone 0 (x ++ a) (x ++ b).
Proof. intros H. induction x; simpl; [exact H | now constructor]. Qed.

Lemma rep_undone (A B : Type) (R : A -> B -> Prop) (p : ascii -> bool)
  (k' : cursor -> option A) (k : cursor -> option B) :
  p "0"%char = false ->
  (forall d' d, undone 0 (rest d') (rest d) -> res_rel R (k' d') (k d)) ->
  forall hi lo cur' cur,
    undone 0 (rest cur') (rest cur) ->
    res_rel R (rep p lo hi cur' k') (rep p lo hi cur k).
Proof.
  intros Hz Hk. induction hi as [|hi IH]; intros lo cur' cur H.
  - simpl. destruct (lo =? 0); [now apply Hk | exact I].
  - assert (Hstop : res_rel R (if lo =? 0 then k' cur' else None)
                              (if lo =? 0 then k cur else None)).
    { destruct (lo =? 0); [now apply Hk | exact I]. }
    cbn [rep].
    destruct cur' as [pv' s' cp'], cur as [pv s cp]. cbn [rest] in *.
    inversion H as [|c a b Hab|a b Hab|a b Hab|a b Hab]; subst.
    + exact Hstop.
    + destruct (p c); [|exact Hstop].
      assert (Hin : res_rel R
                (rep p (pred lo) hi (advance c a (Cursor pv' (c :: a) cp')) k')
                (rep p (pred lo) hi (advance c b (Cursor pv (c :: b) cp)) k)).
      { apply IH. exact Hab. }
      destruct (rep p (pred lo) hi (advance c a (Cursor pv' (c :: a) cp')) k'),
               (rep p (pred lo) hi (advance c b (Cursor pv (c :: b) cp)) k);
        simpl in Hin |- *; try contradiction; [exact Hin | exact Hstop].
    + rewrite Hz. exact Hstop.
Qed.

Lemma run_undone (A B : Type) (R : A -> B -> Prop) (r : regex) :
  plain r = true -> rejects "0" r = true ->
  forall (k' : cursor -> option A) (k : cursor -> option B),
    (forall d' d, undone 0 (rest d') (rest d) -> res_rel R (k' d') (k d)) ->
    forall cur' cur,
      undone 0 (rest cur') (rest cur) ->
      res_rel R (run r cur' k') (run r cur k).
Proof.
  induction r as [|p|r1 IH1 r2 IH2|p lo hi|r IH|p|p|p];
    simpl; intros Hp Hz k' k Hk cur' cur H; try discriminate.
  - now apply Hk.
  - apply negb_true_iff in Hz.
    destruct cur' as [pv' s' cp'], cur as [pv s cp]. cbn [rest] in *.
    inversion H as [|c a b Hab|a b Hab|a b Hab|a b Hab]; subst; simpl.
    + exact I.
    + destruct (p c); [|exact I]. apply Hk. exact Hab.
    + rewrite Hz. exact I.
  - apply andb_prop in Hp as [Hp1 Hp2]. apply andb_prop in Hz as [Hz1 Hz2].
    apply IH1; auto; intros d' d Hd; apply IH2; auto.
  - apply negb_true_iff in Hz. now apply rep_undone.
Qed.

Lemma match_at_undone (r : regex) (pv' pv : option ascii) (t' t : text) :
  plain r = true -> rejects "0" r = true -> undone 0 t' t ->
  res_rel (fun m' m => undone 0 (end_rest m') (end_rest m))
          (match_at r pv' t') (match_at r pv t).
Proof.
  intros Hp Hz H. unfold match_at.
  apply run_undone; auto; intros d' d Hd; exact Hd.
Qed.

Lemma rep_rejects_head (A : Type) (p : ascii -> bool) (lo hi : nat)
  (cur : cursor) (k : cursor -> option A) (c : ascii) (s : text) :
  (lo =? 0) = false -> p c = false -> rest cur = c :: s ->
  rep p lo hi cur k = None.
Proof.
  intros Hlo Hc Er. destruct hi; simpl; rewrite ?Er, ?Hc, Hlo; reflexivity.
Qed.

Lemma run_rejects_head (A : Type) (r : regex) (c : ascii) :
  rejects_head c r = true ->
  forall (k : cursor -> option A) cur s,
    rest cur = c :: s -> run r cur k = None.
Proof.
  induction r as [|p|r1 IH1 r2 IH2|p lo hi|r IH|p|p|p];
    simpl; intros Hr k cur s Er; try discriminate.
  - apply negb_true_iff in Hr. now rewrite Er, Hr.
  - eapply IH1; eauto.
  - apply andb_prop in Hr as [Hlo Hc].
    apply negb_true_iff in Hlo, Hc. eapply rep_rejects_head; eauto.
Qed.

Lemma match_at_rejects_head (r : regex) (c : ascii) (pv : option ascii)
  (s : text) :
  rejects_head c r = true -> match_at r pv (c :: s) = None.
Proof.
  intros H. unfold match_at. eapply run_rejects_head; eauto. reflexivity.
Qed.

Lemma blind_rule_parts (rl : rule) :
  blind_rule rl = true ->
  plain (pat rl) = true /\ rejects "0" (pat rl) = true
  /\ 0 < min_len (pat rl)
  /\ rejects_head "2" (pat rl) = true /\ rejects_head "8" (pat rl) = true
  /\ rejects_head "B" (pat rl) = true.
Proof.
  unfold blind_rule. intros H.
  repeat (apply andb_prop in H as [H ?]).
  repeat split; auto. now apply Nat.ltb_lt.
Qed.

(** A blind rule turns texts related by [undone] into such texts, with
    the same number of replacements. *)
Lemma sub_loop_undone (rl : rule) :
  blind_rule rl = true ->
  forall fuel q pv' pv t' t n,
    undone q t' t ->
    res_rel (fun x y => snd x = snd y /\ undone q (fst x) (fst y))
      (sub_loop (pat rl) (fun _ n0 => (repl rl, S n0)) fuel pv' t' n)
      (sub_loop (pat rl) (fun _ n0 => (repl rl, S n0)) fuel pv t n).
Proof.
  intros Hb. destruct (blind_rule_parts _ Hb) as (Hp & Hz & Hm & H2 & H8 & HB).
  induction fuel as [|fuel IH]; intros q pv' pv t' t n H; [exact I|].
  rewrite !sub_loop_S.
  assert (Hcopy : forall q1 q0 c' c a b,
             undone q1 a b ->
             (forall x y, undone q1 x y -> undone q0 (c' :: x) (c :: y)) ->
             res_rel (fun x y => snd x = snd y /\ undone q0 (fst x) (fst y))
               match sub_loop (pat rl) (fun _ n0 => (repl rl, S n0)) fuel
                       (Some c') a n with
               | Some (tl, st2) => Some (c' :: tl, st2)
               | None => None
               end
               match sub_loop (pat rl) (fun _ n0 => (repl rl, S n0)) fuel
                       (Some c) b n with
               | Some (tl, st2) => Some (c :: tl, st2)
               | None => None
               end).
  { intros q1 q0 c' c a b Hab Hcons.
    pose proof (IH q1 (Some c') (Some c) a b n Hab) as Hr.
    destruct (sub_loop _ _ fuel (Some c') a n) as [[o' k']|],
             (sub_loop _ _ fuel (Some c) b n) as [[o k]|];
      simpl in Hr |- *; try contradiction; auto.
    destruct Hr as [-> Hr]. split; [reflexivity|]. now apply Hcons. }
  inversion H as [|c a b Hab|a b Hab|a b Hab|a b Hab]; subst.
  - pose proof (@match_at_undone (pat rl) pv' pv [] [] Hp Hz H) as Hr.
    destruct (match_at (pat rl) pv' []) as [m'|] eqn:E';
      destruct (match_at (pat rl) pv []) as [m|] eqn:E;
      simpl in Hr; try contradiction.
    + apply match_at_consumes in E. simpl in E. lia.
    + simpl. split; [reflexivity | constructor].
  - pose proof (@match_at_undone (pat rl) pv' pv _ _ Hp Hz H) as Hr.
    destruct (match_at (pat rl) pv' (c :: a)) as [m'|] eqn:E';
      destruct (match_at (pat rl) pv (c :: b)) as [m|] eqn:E;
      simpl in Hr; try contradiction.
    + apply match_at_consumes in E', E.
      replace (length (end_rest m') <? length (c :: a)) with true
        by (symmetry; apply Nat.ltb_lt; lia).
      replace (length (end_rest m) <? length (c :: b)) with true
        by (symmetry; apply Nat.ltb_lt; lia).
      pose proof (IH 0 (end_prev m') (end_prev m) _ _ (S n) Hr) as Hr2.
      destruct (sub_loop _ _ fuel (end_prev m') (end_rest m') (S n))
        as [[o' k']|],
        (sub_loop _ _ fuel (end_prev m) (end_rest m) (S n)) as [[o k]|];
        simpl in Hr2 |- *; try contradiction; auto.
      destruct Hr2 as [-> Hr2]. split; [reflexivity|].
      now apply undone_app_same.
    + apply (Hcopy 0 0 c c a b Hab). intros x y Hxy. now constructor.
  - pose proof (@match_at_undone (pat rl) pv' pv _ _ Hp Hz H) as Hr.
    destruct (match_at (pat rl) pv' ("0"%char :: a)) as [m'|] eqn:E';
      destruct (match_at (pat rl) pv ("0"%char :: b)) as [m|] eqn:E;
      simpl in Hr; try contradiction.
    + apply match_at_consumes in E', E.
      replace (length (end_rest m') <? length ("0"%char :: a)) with true
        by (symmetry; apply Nat.ltb_lt; lia).
      replace (length (end_rest m) <? length ("0"%char :: b)) with true
        by (symmetry; apply Nat.ltb_lt; lia).
      pose proof (IH 0 (end_prev m') (end_prev m) _ _ (S n) Hr) as Hr2.
      destruct (sub_loop _ _ fuel (end_prev m') (end_rest m') (S n))
        as [[o' k']|],
        (sub_loop _ _ fuel (end_prev m) (end_rest m) (S n)) as [[o k]|];
        simpl in Hr2 |- *; try contradiction; auto.
      destruct Hr2 as [-> Hr2]. split; [reflexivity|].
      now apply undone_app_same.
    + apply (Hcopy 1 0 "0"%char "0"%char a b Hab).
      intros x y Hxy. now constructor.
  - rewrite !(@match_at_rejects_head _ _ _ _ H2).
    apply (Hcopy 2 1 "2"%char "2"%char a b Hab).
    intros x y Hxy. now constructor.
  - rewrite (@match_at_rejects_head _ _ _ _ H8), (@match_at_rejects_head _ _ _ _ HB).
    apply (Hcopy 0 2 "8"%char "B"%char a b Hab).
    intros x y Hxy. now constructor.
Qed.

Lemma strip_prefix_app (w s r : text) :
  strip_prefix w s = Some r -> s = w ++ r.
Proof.
  revert s. induction w as [|c w IH]; intros s H; simpl in H.
  - now injection H as ->.
  - destruct s as [|d s]; [discriminate|].
    destruct (Ascii.eqb c d) eqn:E; [|discriminate].
    apply Ascii.eqb_eq in E. subst d. simpl. f_equal. now apply IH.
Qed.

Lemma run_lit_chars (A : Type) (k : cursor -> option A) (w : text) :
  forall cur,
    run (fold_right (fun c r => Cat (Chr c) r) Eps w) cur k =
    match strip_prefix w (rest cur) with
    | Some r => k {| prev := prev_after (prev cur) w; rest := r;
                     caps := caps cur |}
    | None => None
    end.
Proof.
  induction w as [|c w IH]; intros [pv s cp]; simpl.
  - reflexivity.
  - destruct s as [|d s]; [reflexivity|].
    destruct (Ascii.eqb c d) eqn:E; [|reflexivity].
    apply Ascii.eqb_eq in E. subst d. rewrite IH. reflexivity.
Qed.

Lemma match_at_lit (w : string) (pv : option ascii) (s : text) :
  match_at (Lit w) pv s =
  match strip_prefix (T w) s with
  | Some r => Some {| group0 := firstn (length s - length r) s;
                      groups := []; end_prev := prev_after pv (T w);
                      end_rest := r |}
  | None => None
  end.
Proof. unfold match_at, Lit. now rewrite run_lit_chars. Qed.

(** The first rule turns a text into one related to it by [undone]. *)
Lemma rule1_undone (fuel : nat) :
  forall pv t n out n',
    sub_loop (Lit "0002B") (fun _ n0 => (T "00028", S n0)) fuel pv t n
    = Some (out, n') ->
    undone 0 out t.
Proof.
  induction fuel as [|fuel IH]; intros pv t n out n' H; [discriminate|].
  rewrite sub_loop_S, match_at_lit in H.
  destruct (strip_prefix (T "0002B") t) as [r|] eqn:Es.
  - apply strip_prefix_app in Es. subst t. cbn [end_rest end_prev] in H.
    replace (length r <? length (T "0002B" ++ r)) with true in H
      by (symmetry; apply Nat.ltb_lt; rewrite length_app; simpl; lia).
    destruct (sub_loop _ _ fuel _ r (S n)) as [[tl k]|] eqn:E;
      [|discriminate].
    injection H as <- <-. apply IH in E.
    change (undone 0 ("0" :: "0" :: "0" :: "2" :: "8" :: tl)
                     ("0" :: "0" :: "0" :: "2" :: "B" :: r))%char.
    do 2 apply undone_same. apply undone_zero, undone_two, undone_eight.
    exact E.
  - destruct t as [|c t]; [injection H as <- <-; constructor|].
    destruct (sub_loop _ _ fuel (Some c) t n) as [[tl k]|] eqn:E;
      [|discriminate].
    injection H as <- <-. apply undone_same. eapply IH; eauto.
Qed.

(** How the pattern 028 sees two texts related by [undone]. *)
Lemma strip_028_undone (t' t : text) :
  undone 0 t' t ->
  match strip_prefix (T "028") t', strip_prefix (T "028") t with
  | Some r', Some r => undone 0 r' r
  | None, None => True
  | Some r', None => exists r, t = T "02B" ++ r /\ undone 0 r' r
  | None, Some _ => False
  end.
Proof.
  intros H.
  inversion H as [|c a b Hab|a b Hab|? ? ?|? ? ?]; subst.
  - exact I.
  - cbn [strip_prefix T String.list_ascii_of_string].
    destruct (Ascii.eqb "0" c) eqn:E0; [|exact I].
    inversion Hab as [|c1 a1 b1 Hab1|a1 b1 Hab1|? ? ?|? ? ?]; subst;
      [exact I| |reflexivity].
    destruct (Ascii.eqb "2" c1) eqn:E2; [|exact I].
    inversion Hab1 as [|c2 a2 b2 Hab2|a2 b2 Hab2|? ? ?|? ? ?]; subst;
      [exact I| |reflexivity].
    destruct (Ascii.eqb "8" c2) eqn:E8; [exact Hab2 | exact I].
  - inversion Hab as [|? ? ? ?|? ? ?|a1 b1 Hab1|? ? ?]; subst.
    inversion Hab1 as [|? ? ? ?|? ? ?|? ? ?|a2 b2 Hab2]; subst.
    cbn. exists b2. split; [reflexivity | exact Hab2].
Qed.

(** The rule 028 -> 02B returns the same text on two texts related by
    [undone]. *)
Lemma rule9_undone (n : nat) :
  forall t' t,
    length t <= n -> undone 0 t' t ->
    forall fuel' fuel pv' pv c' c,
      length t' < fuel' -> length t < fuel ->
      exists o k' k,
        sub_loop (Lit "028") (fun _ n0 => (T "02B", S n0)) fuel' pv' t' c'
        = Some (o, k')
        /\ sub_loop (Lit "028") (fun _ n0 => (T "02B", S n0)) fuel pv t c
           = Some (o, k).
Proof.
  induction n as [|n IH]; intros t' t Hn H fuel' fuel pv' pv c' c Hf' Hf.
  - destruct t; [|simpl in Hn; lia]. inversion H; subst.
    destruct fuel'; [lia|]. destruct fuel; [lia|].
    exists [], c', c. split; reflexivity.
  - pose proof (undone_length H) as HL.
    pose proof (strip_028_undone H) as Hs.
    destruct fuel' as [|fuel']; [lia|]. destruct fuel as [|fuel]; [lia|].
    rewrite (sub_loop_S _ _ fuel'), match_at_lit.
    destruct (strip_prefix (T "028") t') as [r'|] eqn:Es'.
    + pose proof (strip_prefix_app _ _ Es') as Et'. cbn [end_rest end_prev].
      replace (length r' <? length t') with true
        by (symmetry; apply Nat.ltb_lt; rewrite Et', length_app; simpl; lia).
      destruct (strip_prefix (T "028") t) as [r|] eqn:Es.
      * pose proof (strip_prefix_app _ _ Es) as Et.
        rewrite (sub_loop_S _ _ fuel), match_at_lit, Es.
        cbn [end_rest end_prev].
        replace (length r <? length t) with true
          by (symmetry; apply Nat.ltb_lt; rewrite Et, length_app; simpl; lia).
        assert (Hr : length r <= n).
        { rewrite Et, length_app in Hn. simpl in Hn. lia. }
        destruct (IH r' r Hr Hs fuel' fuel (prev_after pv' (T "028"))
                    (prev_after pv (T "028")) (S c') (S c))
          as (o & k' & k & E' & E).
        { rewrite Et', length_app in Hf'. simpl in Hf'. lia. }
        { rewrite Et, length_app in Hf. simpl in Hf. lia. }
        rewrite E', E. eauto.
      * destruct Hs as (r & Et & Hr).
        subst t. simpl in Hn, Hf.
        destruct fuel as [|fuel]; [lia|]. destruct fuel as [|fuel]; [lia|].
        assert (Hr' : length r <= n) by lia.
        destruct (IH r' r Hr' Hr fuel' fuel (prev_after pv' (T "028"))
                    (Some "B"%char) (S c') c)
          as (o & k' & k & E' & E).
        { rewrite Et', length_app in Hf'. simpl in Hf'. lia. }
        { lia. }
        rewrite E'.
        rewrite (sub_loop_S _ _ (S (S fuel))), match_at_lit.
        cbn [T String.list_ascii_of_string strip_prefix app].
        change (Ascii.eqb "0" "0") with true.
        change (Ascii.eqb "2" "2") with true.
        change (Ascii.eqb "8" "B") with false. cbv iota.
        rewrite (sub_loop_S _ _ (S fuel)), match_at_lit.
        cbn [T String.list_ascii_of_string strip_prefix app].
        change (Ascii.eqb "0" "2") with false. cbv iota.
        rewrite (sub_loop_S _ _ fuel), match_at_lit.
        cbn [T String.list_ascii_of_string strip_prefix app].
        change (Ascii.eqb "0" "B") with false. cbv iota.
        change ["0"%char; "2"%char; "B"%char] with (T "02B").
        rewrite E. eauto.
    + destruct (strip_prefix (T "028") t) as [r|] eqn:Es; [contradiction|].
      rewrite (sub_loop_S _ _ fuel), match_at_lit, Es.
      inversion H as [|c0 a b Hab|a b Hab|? ? ?|? ? ?]; subst.
      * exists [], c', c. split; reflexivity.
      * simpl in Hn, Hf', Hf.
        destruct (IH a b ltac:(lia) Hab fuel' fuel (Some c0) (Some c0) c' c)
          as (o & k' & k & E' & E); [lia | lia |].
        rewrite E', E. eauto.
      * exfalso. clear - Es' Hab.
        inversion Hab as [|? ? ? ?|? ? ?|a1 b1 Hab1|? ? ?]; subst.
        inversion Hab1 as [|? ? ? ?|? ? ?|? ? ?|a2 b2 Hab2]; subst.
        discriminate Es'.
Qed.

(** The count of a scan only grows, and a scan that replaces nothing
    returns the text as it was. *)
Lemma sub_count (r : regex) (rp : text) (fuel : nat) :
  forall pv s n out n',
    sub_loop r (fun _ n0 => (rp, S n0)) fuel pv s n = Some (out, n') ->
    n <= n' /\ (n' = n -> out = s).
Proof.
  induction fuel as [|fuel IH]; intros pv s n out n' H; [discriminate|].
  rewrite sub_loop_S in H.
  destruct (match_at r pv s) as [m|].
  - destruct (length (end_rest m) <? length s).
    + destruct (sub_loop _ _ fuel (end_prev m) (end_rest m) (S n))
        as [[tl k]|] eqn:E; [|discriminate].
      injection H as <- <-. apply IH in E. lia.
    + destruct s as [|c s'].
      * injection H as <- <-. lia.
      * destruct (sub_loop _ _ fuel (Some c) s' (S n))
          as [[tl k]|] eqn:E; [|discriminate].
        injection H as <- <-. apply IH in E. lia.
  - destruct s as [|c s']; [injection H as <- <-; auto|].
    destruct (sub_loop _ _ fuel (Some c) s' n) as [[tl k]|] eqn:E;
      [|discriminate].
    injection H as <- <-. apply IH in E. destruct E as [Hle Heq].
    split; [exact Hle|]. intros Hn. now rewrite (Heq Hn).
Qed.

(** The text a rule returns is the text of its substitution. *)
Lemma apply_rule_text (rl : rule) (self self' : PageCorrector)
  (tx u : text) :
  _apply_rule rl self tx = Some (u, self') <->
  exists n, subn (pat rl) (repl rl) tx = Some (u, n)
            /\ self' = (if n =? 0 then self
                        else {| page := page self;
                                rule_hits := rule_hits self
                                  ++ [(pattern rl, repl rl, label rl, n)];
                                id_changes := id_changes self;
                                total_fixes := total_fixes self + n |}).
Proof.
  unfold _apply_rule. split.
  - destruct (subn (pat rl) (repl rl) tx) as [[new n]|] eqn:E;
      [|discriminate].
    destruct (n =? 0) eqn:En; intros [= <- <-]; exists n; rewrite En.
    + apply Nat.eqb_eq in En. subst n.
      unfold subn, sub in E. apply sub_count in E as [_ E].
      now rewrite (E eq_refl).
    + auto.
  - intros (n & E & ->). rewrite E.
    destruct (n =? 0) eqn:En; [|reflexivity].
    apply Nat.eqb_eq in En. subst n.
    unfold subn, sub in E. apply sub_count in E as [_ E].
    now rewrite (E eq_refl).
Qed.

(** The text of the rule pass does not depend on the report it
    extends. *)
Lemma apply_rules_from_text (rules : list rule) :
  forall self1 self2 tx u r1,
    apply_rules_from rules self1 tx = Some (u, r1) ->
    exists r2, apply_rules_from rules self2 tx = Some (u, r2).
Proof.
  induction rules as [|rl rules IH]; intros self1 self2 tx u r1 H;
    simpl in *.
  - injection H as <- _. eauto.
  - destruct (_apply_rule rl self1 tx) as [[t1 s1]|] eqn:E1; [|discriminate].
    apply apply_rule_text in E1 as (n & Es & _).
    assert (E2 : exists s2, _apply_rule rl self2 tx = Some (t1, s2)).
    { eexists. apply apply_rule_text. exists n. split; [exact Es|reflexivity]. }
    destruct E2 as (s2 & E2). rewrite E2. eapply IH; eauto.
Qed.

Lemma apply_rules_from_undone (rules : list rule) :
  Forall (fun rl => blind_rule rl = true) rules ->
  forall s' s t' t u' u r' r,
    undone 0 t' t ->
    apply_rules_from rules s' t' = Some (u', r') ->
    apply_rules_from rules s t = Some (u, r) ->
    undone 0 u' u.
Proof.
  induction 1 as [|rl rules Hb _ IH]; intros s' s t' t u' u r' r H E' E;
    simpl in *.
  - injection E' as <- _. injection E as <- _. exact H.
  - destruct (_apply_rule rl s' t') as [[t1' s1']|] eqn:E1'; [|discriminate].
    destruct (_apply_rule rl s t) as [[t1 s1]|] eqn:E1; [|discriminate].
    apply apply_rule_text in E1' as (n' & Es' & _).
    apply apply_rule_text in E1 as (n & Es & _).
    unfold subn, sub in Es', Es.
    pose proof (@sub_loop_undone rl Hb (S (length t')) 0 None None t' t 0 H)
      as Hr.
    rewrite (undone_length H) in Es', Hr. rewrite Es', Es in Hr.
    destruct Hr as [_ Hr]. eapply IH; eauto.
Qed.

Lemma RULES_split :
  RULES = RULE_1 :: RULES_2_8 ++ RULE_9 :: RULES_10_12.
Proof. reflexivity. Qed.

Lemma RULES_2_8_blind : Forall (fun rl => blind_rule rl = true) RULES_2_8.
Proof.
  unfold RULES_2_8, RULES. cbn [tl firstn].
  repeat (apply Forall_cons; [vm_compute; reflexivity|]). apply Forall_nil.
Qed.

(** X11: the first rule of the table, 0002B -> 00028, never shows in
    the corrected text: its replacement is turned back by the later
    rule 028 -> 02B, so the rule pass returns, on every text, the text
    the table without its first rule returns.  (The reports differ: the
    first rule and the later one both count the replacement.) *)
Theorem X11_first_rule_is_undone (self : PageCorrector) (t : text) :
  exists u r r',
    _apply_rules self t = Some (u, r)
    /\ apply_rules_from (tl RULES) self t = Some (u, r').
Proof.
  unfold _apply_rules.
  destruct (apply_rules_from_total RULES self t) as [[u r] E].
  destruct (apply_rules_from_total (tl RULES) self t) as [[v r'] E'].
  exists u, r, r'. split; [exact E|].
  rewrite RULES_split in E.
  change (tl RULES) with (RULES_2_8 ++ RULE_9 :: RULES_10_12) in E' |- *.
  rewrite E'. do 2 f_equal.
  cbn [apply_rules_from] in E.
  destruct (_apply_rule RULE_1 self t) as [[t1 s1]|] eqn:E1; [|discriminate].
  assert (H1 : undone 0 t1 t).
  { apply apply_rule_text in E1 as (n & Es & _).
    unfold subn, sub in Es. exact (rule1_undone _ _ _ _ Es). }
  rewrite apply_rules_from_app in E, E'.
  destruct (apply_rules_from RULES_2_8 s1 t1) as [[t8' s8']|] eqn:E8';
    [|discriminate].
  destruct (apply_rules_from RULES_2_8 self t) as [[t8 s8]|] eqn:E8;
    [|discriminate].
  pose proof (apply_rules_from_undone RULES_2_8_blind _ _ H1 E8' E8) as H8.
  cbn [apply_rules_from] in E, E'.
  destruct (_apply_rule RULE_9 s8' t8') as [[t9' s9']|] eqn:E9';
    [|discriminate].
  destruct (_apply_rule RULE_9 s8 t8) as [[t9 s9]|] eqn:E9; [|discriminate].
  assert (H9 : t9' = t9).
  { apply apply_rule_text in E9' as (n' & Es' & _).
    apply apply_rule_text in E9 as (n & Es & _).
    unfold subn, sub in Es', Es.
    destruct (@rule9_undone (length t8) t8' t8 (le_n _) H8
                (S (length t8')) (S (length t8)) None None 0 0)
      as (o & k' & k & F' & F); [lia | lia |].
    change (pat RULE_9) with (Lit "028") in Es', Es.
    change (repl RULE_9) with (T "02B") in Es', Es.
    congruence. }
  subst t9'.
  destruct (apply_rules_from_text _ _ s9 _ E) as (r2 & E2).
  congruence.
Qed.

(** Seeing the image sources through [f] commutes with the placing of
    the lines. *)
Lemma place_lines_page_map (A B : Type) (f : A -> B)
  (raises : PrimFloat.float -> PrimFloat.float -> text -> bool)
  (h_pt step : PrimFloat.float) (lines : list text) :
  forall i (pg : Page A),
    place_lines raises (page_map f pg) h_pt step i lines
    = page_map f (place_lines raises pg h_pt step i lines).
Proof.
  induction lines as [|l lines IH]; intros i pg; [reflexivity|].
  cbn [place_lines]. destruct (PrimFloat.ltb _ _); [reflexivity|].
  unfold insert_text. destruct (raises _ _ _); [apply IH|].
  rewrite <- IH. reflexivity.
Qed.

Lemma insert_invisible_text_page_map (A B : Type) (f : A -> B)
  (raises : PrimFloat.float -> PrimFloat.float -> text -> bool)
  (pg : Page A) (tx : text) (w_pt h_pt : PrimFloat.float) :
  _insert_invisible_text raises (page_map f pg) tx w_pt h_pt
  = page_map f (_insert_invisible_text raises pg tx w_pt h_pt).
Proof.
  unfold _insert_invisible_text.
  destruct (text_lines tx) as [|l ls]; [reflexivity|].
  apply place_lines_page_map.
Qed.

Lemma save_page_map (A B : Type) (f : A -> B) (out : list (Page A)) :
  save (map (page_map f) out)
  = match save out with
    | Returns doc => Returns (map (page_map f) doc)
    | Raises e => Raises e
    end.
Proof. destruct out; reflexivity. Qed.

(** X12: on rasterised pages, which are bytes, the page assembly of
    ocr_app.py composes the page ria.py composes, the image source
    being tagged as bytes: same size, same image rectangle, same
    invisible lines at the same places.  So [build_searchable_pdf] on
    the image sources of a PDF and [build_pdf] save the same pages in
    the same order, and raise the same ValueError when there is no
    page to save. *)
Theorem X12_both_synthesizers_agree
  (raises : PrimFloat.float -> PrimFloat.float -> text -> bool)
  (png_pages : list (RasterPage bytes)) (texts : list text) :
  (forall (png : RasterPage bytes) tx,
      OcrApp.build_page raises (as_bytes_source png) tx
      = page_map OcrApp.FromBytes (build_page raises png tx))
  /\ OcrApp.build_searchable_pdf raises (map as_bytes_source png_pages) texts
     = match build_pdf raises png_pages texts with
       | Returns out => Returns (map (page_map OcrApp.FromBytes) out)
       | Raises e => Raises e
       end.
Proof.
  assert (H : forall (png : RasterPage bytes) tx,
             OcrApp.build_page raises (as_bytes_source png) tx
             = page_map OcrApp.FromBytes (build_page raises png tx)).
  { intros png tx. unfold OcrApp.build_page, build_page.
    cbn [as_bytes_source size source].
    destruct (size png) as [w_px h_px].
    rewrite ocr_app_insert_invisible_text.
    rewrite <- insert_invisible_text_page_map. reflexivity. }
  split; [exact H|].
  rewrite build_searchable_pdf_map, build_pdf_map, <- save_page_map.
  f_equal. rewrite map_map.
  revert texts. induction png_pages as [|png png_pages IH];
    intros [|tx texts]; try reflexivity.
  cbn [map combine fst snd]. now rewrite H, IH.
Qed.

(** X13: [process_file] of ocr_app.py lists one image source per page,
    one for a picture and one per rasterised page for a PDF, and hands
    to the synthesizer one text per source: the markdown the OCR
    service answered for it, taken as it is.  With a source the call
    returns: the searchable PDF has one page per source, page [i]
    composed from source [i] and its markdown, and the markdown file,
    when asked for, joins these texts with the page separator; a
    picture always gives one page.  For a PDF without pages the call
    raises the ValueError of the save, before any markdown file is
    written. *)
Theorem X13_ocr_app_process_file
  (raises : PrimFloat.float -> PrimFloat.float -> text -> bool)
  (ocr_process : nat -> RasterPage OcrApp.img_src -> OcrAppFile.response)
  (src : OcrAppFile.input) (save_markdown : bool) :
  let sources := OcrAppFile.image_sources src in
  let texts :=
    map (fun id => OcrAppFile.md_text (ocr_process (fst id) (snd id)))
        (combine (seq 0 (length sources)) sources) in
  length sources
  = match src with
    | OcrAppFile.Pdf pages_png => length pages_png
    | OcrAppFile.Picture _ => 1
    end
  /\ OcrAppFile.pages_markdown ocr_process src = texts
  /\ length texts = length sources
  /\ match src with
     | OcrAppFile.Pdf [] =>
       OcrAppFile.process_file raises ocr_process src save_markdown
       = Raises (ValueError "cannot save with zero pages")
     | _ =>
       exists doc,
         OcrAppFile.process_file raises ocr_process src save_markdown
         = Returns (doc,
                    if save_markdown then Some (join PAGE_SEP texts)
                    else None)
         /\ length doc = length sources
         /\ forall i img,
              nth_error sources i = Some img ->
              nth_error doc i
              = Some (OcrApp.build_page raises img
                        (OcrAppFile.md_text (ocr_process i img)))
     end.
Proof.
  cbv zeta.
  set (sources := OcrAppFile.image_sources src).
  set (texts := map (fun id => OcrAppFile.md_text
                                 (ocr_process (fst id) (snd id)))
                    (combine (seq 0 (length sources)) sources)).
  assert (Hmd : OcrAppFile.pages_markdown ocr_process src = texts).
  { unfold OcrAppFile.pages_markdown. fold sources.
    now rewrite fold_left_snoc. }
  assert (HL : length texts = length sources).
  { unfold texts. rewrite length_map, length_combine, length_seq.
    apply Nat.min_id. }
  assert (HS : length sources
               = match src with
                 | OcrAppFile.Pdf pages_png => length pages_png
                 | OcrAppFile.Picture _ => 1
                 end).
  { unfold sources. destruct src; simpl; [apply length_map | reflexivity]. }
  split; [exact HS|]. split; [exact Hmd|]. split; [exact HL|].
  assert (HP : OcrAppFile.process_file raises ocr_process src save_markdown
               = match save (map (fun pm => OcrApp.build_page raises
                                               (fst pm) (snd pm))
                                 (combine sources texts)) with
                 | Raises e => Raises e
                 | Returns doc =>
                   Returns (doc,
                            if save_markdown
                            then Some (join PAGE_SEP texts) else None)
                 end).
  { unfold OcrAppFile.process_file. fold sources.
    now rewrite Hmd, build_searchable_pdf_map. }
  assert (Hdoc : 1 <= length sources ->
            exists doc,
              OcrAppFile.process_file raises ocr_process src save_markdown
              = Returns (doc,
                         if save_markdown then Some (join PAGE_SEP texts)
                         else None)
              /\ length doc = length sources
              /\ forall i img,
                   nth_error sources i = Some img ->
                   nth_error doc i
                   = Some (OcrApp.build_page raises img
                             (OcrAppFile.md_text (ocr_process i img)))).
  { intros N. rewrite HP, save_pages.
    2:{ rewrite length_map, length_combine, HL. lia. }
    eexists. split; [reflexivity|]. split.
    - rewrite length_map, length_combine, HL. apply Nat.min_id.
    - intros i img Hi.
      assert (Hlt : i < length sources)
        by (apply nth_error_Some; congruence).
      assert (Hp : nth_error (combine (seq 0 (length sources)) sources) i
                   = Some (i, img)).
      { apply nth_error_combine; [|exact Hi].
        rewrite nth_error_nth' with (d := 0)
          by (rewrite length_seq; exact Hlt).
        now rewrite seq_nth. }
      assert (Ht : nth_error texts i
                   = Some (OcrAppFile.md_text (ocr_process i img))).
      { unfold texts. now rewrite nth_error_map, Hp. }
      now rewrite (@nth_error_map_combine _ _ _ _ _ _ _ _ _ Hi Ht). }
  destruct src as [[|png pages_png]|img].
  - rewrite HP. reflexivity.
  - apply Hdoc. rewrite HS. simpl. lia.
  - apply Hdoc. rewrite HS. lia.
Qed.
